(** * wangle: priority queue, length-field framing, pipeline entry points and
      connection manager

    A shallow embedding of
    - [PriorityLifoSemMPMCQueue] (wangle/concurrent),
    - [LengthFieldPrepender] (wangle/codec),
    - the entry points of [Pipeline<R, W>] (wangle/channel/Pipeline.h),
    - [ConnectionManager] (wangle/acceptor/ConnectionManager.cpp),
    followed by the properties established about them. *)

From Stdlib Require Import ZArith Lia Bool.
From stdpp Require Import base option list gmap.

(* ===================================================================== *)
(** * Part I: the model                                                   *)
(* ===================================================================== *)

(** ** PriorityLifoSemMPMCQueue *)

Module PriorityQueue.

(** Modelled from the spec: [folly::MPMCQueue<T>] is used by the queue but
    is not part of these sources.  It is a fixed-capacity queue:
    [write] is the non-blocking enqueue, refused when the capacity is
    exhausted, and [read] the non-blocking dequeue, refused when empty;
    [items] lists what is enqueued, the next item to leave first. *)
Record MPMCQueue (T : Type) : Type := MkMPMC {
  capacity : nat;
  items : list T
}.
Arguments MkMPMC {T} _ _.
Arguments capacity {T} _.
Arguments items {T} _.

Definition write {T} (q : MPMCQueue T) (x : T) : option (MPMCQueue T) :=
  if length (items q) <? capacity q
  then Some (MkMPMC (capacity q) (items q ++ [x]))
  else None.

Definition read {T} (q : MPMCQueue T) : option (T * MPMCQueue T) :=
  match items q with
  | [] => None
  | x :: rest => Some (x, MkMPMC (capacity q) rest)
  end.

(** The queue object: [sem_] is the count of the [LifoSem] ([post] adds
    one, [wait] takes one and blocks at zero), [queues_] the vector of
    buckets. *)
Record PriorityLifoSemMPMCQueue (T : Type) : Type := MkPQ {
  sem_ : nat;
  queues_ : list (MPMCQueue T)
}.
Arguments MkPQ {T} _ _.
Arguments sem_ {T} _.
Arguments queues_ {T} _.

(** The constructor.  Its loop counter is an [int8_t] compared with the
    [uint8_t] bound, so the loop only ends for bounds up to 127. *)
Definition construct (T : Type) (numPriorities : nat) (cap : nat)
  : option (PriorityLifoSemMPMCQueue T) :=
  if numPriorities <=? 127
  then Some (MkPQ 0 (replicate numPriorities (MkMPMC cap [])))
  else None.

(** [getNumPriorities] returns [queues_.size()] as a [uint8_t]. *)
Definition getNumPriorities {T} (q : PriorityLifoSemMPMCQueue T) : Z :=
  (Z.of_nat (length (queues_ q)) mod 256)%Z.

(** Modelled from the spec: [Executor::MID_PRI] is declared outside these
    sources; the medium priority is the offset 0 from the middle bucket. *)
Definition MID_PRI : Z := 0%Z.

Definition int8 (p : Z) : Prop := (-128 <= p <= 127)%Z.

(** What a call of [addWithPriority] does. *)
Inductive AddOutcome (T : Type) : Type :=
  | Added (q' : PriorityLifoSemMPMCQueue T)
  | QueueFull            (* the std::runtime_error that is thrown *)
  | CheckFailed.         (* CHECK(queue < queues_.size()) aborts *)
Arguments Added {T} _.
Arguments QueueFull {T}.
Arguments CheckFailed {T}.

(** The bucket index as [addWithPriority] computes it: [int] arithmetic,
    then the conversion to [size_t]. *)
Definition bucketOf {T} (q : PriorityLifoSemMPMCQueue T) (priority : Z) : Z :=
  let mid := (getNumPriorities q / 2)%Z in
  let queue :=
    if (priority <? 0)%Z
    then Z.max 0 (mid + priority)
    else Z.min (getNumPriorities q - 1) (mid + priority) in
  (queue mod 2 ^ 64)%Z.

Definition addWithPriority {T} (item : T) (priority : Z)
    (q : PriorityLifoSemMPMCQueue T) : AddOutcome T :=
  let queue := bucketOf q priority in
  if (queue <? Z.of_nat (length (queues_ q)))%Z then
    match queues_ q !! Z.to_nat queue with
    | Some b =>
        match write b item with
        | Some b' =>
            Added (MkPQ (S (sem_ q)) (<[Z.to_nat queue := b']> (queues_ q)))
        | None => QueueFull
        end
    | None => CheckFailed
    end
  else CheckFailed.

Definition add {T} (item : T) (q : PriorityLifoSemMPMCQueue T) : AddOutcome T :=
  addWithPriority item MID_PRI q.

(** One pass of the [for] loop of [take]: the buckets from [rbegin] to
    [rend], given here highest bucket first. *)
Fixpoint scanFrom {T} (rqs : list (MPMCQueue T))
  : option (T * list (MPMCQueue T)) :=
  match rqs with
  | [] => None
  | b :: rest =>
      match read b with
      | Some (x, b') => Some (x, b' :: rest)
      | None =>
          match scanFrom rest with
          | Some (x, rest') => Some (x, b :: rest')
          | None => None
          end
      end
  end.

Definition scan {T} (qs : list (MPMCQueue T))
  : option (T * list (MPMCQueue T)) :=
  match scanFrom (reverse qs) with
  | Some (x, rqs') => Some (x, reverse rqs')
  | None => None
  end.

(** What a call of [take] does when no other thread runs: it returns an
    item, or it is left waiting on a semaphore whose count is zero. *)
Inductive TakeOutcome (T : Type) : Type :=
  | Took (item : T) (q' : PriorityLifoSemMPMCQueue T)
  | Blocked (q' : PriorityLifoSemMPMCQueue T).
Arguments Took {T} _ _.
Arguments Blocked {T} _.

(** The [while (true)] loop of [take]: every unsuccessful pass is followed
    by [sem_.wait()], which consumes one unit of the count. *)
Fixpoint takeLoop {T} (sem : nat) (qs : list (MPMCQueue T)) : TakeOutcome T :=
  match scan qs with
  | Some (x, qs') => Took x (MkPQ sem qs')
  | None =>
      match sem with
      | O => Blocked (MkPQ 0 qs)
      | S sem' => takeLoop sem' qs
      end
  end.

Definition take {T} (q : PriorityLifoSemMPMCQueue T) : TakeOutcome T :=
  takeLoop (sem_ q) (queues_ q).

(** [size] adds up the sizes of the buckets. *)
Definition resident {T} (l : list (MPMCQueue T)) : nat :=
  foldr (fun b acc => length (items b) + acc) 0 l.

Definition size {T} (q : PriorityLifoSemMPMCQueue T) : nat :=
  resident (queues_ q).

(** The states a queue goes through when its operations are called one
    after the other. *)
Inductive step {T} : PriorityLifoSemMPMCQueue T -> PriorityLifoSemMPMCQueue T -> Prop :=
  | step_add item q q' :
      add item q = Added q' -> step q q'
  | step_addWithPriority item p q q' :
      int8 p -> addWithPriority item p q = Added q' -> step q q'
  | step_take_item x q q' :
      take q = Took x q' -> step q q'
  | step_take_blocked q q' :
      take q = Blocked q' -> step q q'.

Inductive reachable {T} : PriorityLifoSemMPMCQueue T -> Prop :=
  | reachable_init n cap q :
      construct T n cap = Some q -> reachable q
  | reachable_step q q' :
      reachable q -> step q q' -> reachable q'.

(** The invariant as the specification words it, and as the code keeps it. *)
Definition count_equals_resident {T} (q : PriorityLifoSemMPMCQueue T) : Prop :=
  sem_ q = size q.

Definition count_covers_resident {T} (q : PriorityLifoSemMPMCQueue T) : Prop :=
  size q <= sem_ q.

(** [clamp x lo hi] of the specification. *)
Definition clamp (x lo hi : Z) : Z := Z.max lo (Z.min x hi).

(** [n] calls of [take] one after the other, with the items they return;
    the calls stop at the first one that is left waiting. *)
Fixpoint takeMany {T} (n : nat) (q : PriorityLifoSemMPMCQueue T)
  : list T * PriorityLifoSemMPMCQueue T :=
  match n with
  | O => ([], q)
  | S n' =>
      match take q with
      | Took x q' =>
          let '(xs, q'') := takeMany n' q' in (x :: xs, q'')
      | Blocked q' => ([], q')
      end
  end.

(** The resident items, highest bucket first and each bucket from its
    front. *)
Definition highestFirst {T} (l : list (MPMCQueue T)) : list T :=
  foldr (fun b acc => acc ++ items b) [] l.

Definition emptied {T} (b : MPMCQueue T) : MPMCQueue T :=
  MkMPMC (capacity b) [].

End PriorityQueue.

(** ** LengthFieldPrepender *)

Module Prepender.

(** The configuration, as the class declares it; bytes are numbers below
    256. *)
Record LengthFieldPrepender : Type := MkPrepender {
  lengthFieldLength_ : Z;
  lengthAdjustment_ : Z;
  lengthIncludesLengthField_ : bool;
  networkByteOrder_ : bool
}.

(** The constructor's default arguments. *)
Definition defaultLengthFieldLength : Z := 4%Z.
Definition defaultLengthAdjustment : Z := 0%Z.
Definition defaultLengthIncludesLengthField : bool := false.
Definition defaultNetworkByteOrder : bool := true.

(** [LengthFieldPrepender(n)]: every argument after the first defaulted. *)
Definition construct1 (lengthFieldLength : Z) : LengthFieldPrepender :=
  MkPrepender lengthFieldLength defaultLengthAdjustment
    defaultLengthIncludesLengthField defaultNetworkByteOrder.

Inductive WriteOutcome : Type :=
  | Forwarded (frame : list Z)
  | EncodingError.

(** The [n] low bytes of [v], least significant first. *)
Fixpoint littleEndian (n : nat) (v : Z) : list Z :=
  match n with
  | O => []
  | S n' => (v mod 256)%Z :: littleEndian n' (v / 256)%Z
  end.

(** The field in the configured byte order: network byte order has the
    most significant byte first, the other order the least significant
    byte first. *)
Definition lengthField (networkByteOrder : bool) (n : nat) (v : Z) : list Z :=
  if networkByteOrder then reverse (littleEndian n v) else littleEndian n v.

(** The number a big-endian byte string denotes. *)
Definition bigEndianValue (bs : list Z) : Z :=
  foldl (fun acc b => (acc * 256 + b)%Z) 0%Z bs.

(** The number a little-endian byte string denotes. *)
Definition littleEndianValue (bs : list Z) : Z :=
  foldr (fun b acc => (b + 256 * acc)%Z) 0%Z bs.

Definition frameLength (p : LengthFieldPrepender) (buf : list Z) : Z :=
  (Z.of_nat (length buf) + lengthAdjustment_ p
   + (if lengthIncludesLengthField_ p then lengthFieldLength_ p else 0))%Z.

(** Modelled from the spec: the body of [LengthFieldPrepender::write] is in
    LengthFieldPrepender.cpp, which is not part of these sources; only the
    class declaration is.  The length is the payload's byte length plus the
    adjustment, plus the field length when the field counts itself; a
    length that is negative or beyond what the field's bytes can hold is an
    encoding error; otherwise the field, in the configured byte order, is
    followed by the payload. *)
Definition write (p : LengthFieldPrepender) (buf : list Z) : WriteOutcome :=
  let length := frameLength p buf in
  if (length <? 0)%Z then EncodingError
  else if (256 ^ lengthFieldLength_ p <=? length)%Z then EncodingError
  else Forwarded
         (lengthField (networkByteOrder_ p) (Z.to_nat (lengthFieldLength_ p))
            length ++ buf).

End Prepender.

(** ** The entry points of Pipeline<R, W> *)

Module PipelineEntryPoints.

(** The message types a pipeline is instantiated with: [Unit], or a type
    of messages, told apart by a number. *)
Inductive MsgType : Type :=
  | Unit
  | Message (n : nat).

Inductive ReturnType : Type :=
  | Void
  | FutureUnit.

(** [std::is_same<T, U>::value]. *)
Definition is_same (T U : MsgType) : bool :=
  match T, U with
  | Unit, Unit => true
  | Message n, Message k => n =? k
  | _, _ => false
  end.

(** [std::enable_if<B, T>::type]: the member [type] exists only when [B]
    holds. *)
Definition enable_if (B : bool) (T : ReturnType) : option ReturnType :=
  if B then Some T else None.

Inductive EntryPoint : Type :=
  | read | readEOF | readException | transportActive | transportInactive
  | write | close.

(** The declared return type of an entry point of [Pipeline<R, W>] once
    its template parameter [T] is substituted. *)
Definition declaredType (R W : MsgType) (e : EntryPoint) (T : MsgType)
  : option ReturnType :=
  match e with
  | read | readEOF | readException | transportActive | transportInactive =>
      enable_if (negb (is_same T Unit)) Void
  | write | close =>
      enable_if (negb (is_same T Unit)) FutureUnit
  end.

(** The default of the template parameter: [class T = R] on the inbound
    entry points, [class T = W] on the outbound ones. *)
Definition defaultT (R W : MsgType) (e : EntryPoint) : MsgType :=
  match e with
  | read | readEOF | readException | transportActive | transportInactive => R
  | write | close => W
  end.

(** What the compiler makes of a call [pipeline.e(...)], which names no
    template argument: with no declared type the substitution fails, no
    candidate remains and the call does not compile. *)
Inductive Compilation : Type :=
  | Compiles (ret : ReturnType)
  | Rejected.

Definition call (R W : MsgType) (e : EntryPoint) : Compilation :=
  match declaredType R W e (defaultT R W e) with
  | Some ret => Compiles ret
  | None => Rejected
  end.

Definition inbound (e : EntryPoint) : bool :=
  match e with
  | read | readEOF | readException | transportActive | transportInactive => true
  | write | close => false
  end.

(** A call may also name the template argument, [pipeline.e<T>(...)]: the
    named type is then substituted for [T] and the default is not used.
    [callNaming R W e None] is the call that names none. *)
Definition callNaming (R W : MsgType) (e : EntryPoint) (T : option MsgType)
  : Compilation :=
  match declaredType R W e (default (defaultT R W e) T) with
  | Some ret => Compiles ret
  | None => Rejected
  end.

(** Every call of an entry point of the direction whose type is [Unit] is
    rejected, whatever template argument it names. *)
Definition everyCallDisabled : Prop :=
  (forall R T e, inbound e = false -> callNaming R Unit e T = Rejected)
  /\ (forall W T e, inbound e = true -> callNaming Unit W e T = Rejected).

End PipelineEntryPoints.

(** ** ConnectionManager *)

Module ConnMgr.

(** Connections and managers are objects with an identity; an intrusive
    list links the connection objects themselves, so [conns_] is the list
    of the linked connections and an iterator into it is the node it
    points at, or [None] for [conns_.end()]. *)
Abbreviation ConnId := nat (only parsing).
Abbreviation MgrId := nat (only parsing).
Abbreviation iterator := (option nat) (only parsing).

Inductive ShutdownAction : Type :=
  | DRAIN1
  | DRAIN2.

Record ConnectionManager : Type := MkMgr {
  conns_ : list ConnId;
  idleIterator_ : iterator;
  action_ : ShutdownAction;
  timeout_ : Z;                         (* milliseconds *)
  idleConnEarlyDropThreshold_ : Z;      (* milliseconds *)
  callback_ : bool;                     (* callback_ != nullptr *)
  loopCallbackScheduled : bool;         (* idleLoopCallback_ queued by runInLoop *)
  graceTimeout : option Z               (* idleLoopCallback_.scheduleTimeout *)
}.

(** What the manager calls on its collaborators.  The calls are recorded
    in the order they are made; what a connection or a callback does in
    return (a connection asked to close may remove itself, for instance)
    is a further call on the manager and not part of the member function
    that makes the call. *)
Inductive Event : Type :=
  | OnConnectionAdded (mgr : MgrId)
  | OnConnectionRemoved (mgr : MgrId)
  | OnEmpty (mgr : MgrId)
  | NotifyPendingShutdown (conn : ConnId)
  | CloseWhenIdle (conn : ConnId)
  | TimeoutExpired (conn : ConnId)
  | DumpConnectionState (conn : ConnId) (verbosity : Z)
  | DropConnection (conn : ConnId).

(** The managers, and the connections' side of the state: the manager each
    connection reports ([getConnectionManager()], absent for [nullptr]),
    its pending timeout, and the calls made so far. *)
Record World : Type := MkWorld {
  managers : gmap nat ConnectionManager;
  connectionManager : gmap nat nat;
  timeouts : gmap nat Z;
  trace : list Event
}.

(** *** Iterators of the intrusive list *)

(** [++it]. *)
Fixpoint next (c : ConnId) (l : list ConnId) : iterator :=
  match l with
  | [] => None
  | x :: rest => if decide (x = c) then head rest else next c rest
  end.

(** [conns_.erase(conns_.iterator_to(c))]. *)
Fixpoint erase (c : ConnId) (l : list ConnId) : list ConnId :=
  match l with
  | [] => []
  | x :: rest => if decide (x = c) then rest else x :: erase c rest
  end.

(** The nodes from an iterator to the end of the list. *)
Fixpoint nodesFrom (c : ConnId) (l : list ConnId) : list ConnId :=
  match l with
  | [] => []
  | x :: rest => if decide (x = c) then x :: rest else nodesFrom c rest
  end.

Definition range (it : iterator) (l : list ConnId) : list ConnId :=
  match it with
  | None => []
  | Some c => nodesFrom c l
  end.

(** An iterator is valid when it is [end()] or points at a linked node. *)
Definition validIterator (it : iterator) (l : list ConnId) : Prop :=
  match it with
  | None => True
  | Some c => c ∈ l
  end.

(** *** Construction and field updates *)

(** Modelled from the spec: the member initialisers of ConnectionManager.h
    are not part of these sources; a manager starts in phase DRAIN1 with
    nothing scheduled. *)
Definition construct (timeout : Z) (callback : bool) : ConnectionManager :=
  MkMgr [] None DRAIN1 timeout (timeout ÷ 2) callback false None.

Definition withList (l : list ConnId) (it : iterator) (m : ConnectionManager) :=
  MkMgr l it (action_ m) (timeout_ m) (idleConnEarlyDropThreshold_ m)
    (callback_ m) (loopCallbackScheduled m) (graceTimeout m).

Definition withAction (a : ShutdownAction) (m : ConnectionManager) :=
  MkMgr (conns_ m) (idleIterator_ m) a (timeout_ m)
    (idleConnEarlyDropThreshold_ m) (callback_ m) (loopCallbackScheduled m)
    (graceTimeout m).

Definition withLoopCallback (s : bool) (m : ConnectionManager) :=
  MkMgr (conns_ m) (idleIterator_ m) (action_ m) (timeout_ m)
    (idleConnEarlyDropThreshold_ m) (callback_ m) s (graceTimeout m).

Definition withGraceTimeout (t : option Z) (m : ConnectionManager) :=
  MkMgr (conns_ m) (idleIterator_ m) (action_ m) (timeout_ m)
    (idleConnEarlyDropThreshold_ m) (callback_ m) (loopCallbackScheduled m) t.

Definition setManager (this : MgrId) (m : ConnectionManager) (w : World) :=
  MkWorld (<[this := m]> (managers w)) (connectionManager w) (timeouts w)
    (trace w).

(** Modelled from the spec: [getNumConnections] is defined in
    ConnectionManager.h, which is not part of these sources; it is the
    number of connections linked into the manager. *)
Definition getNumConnections (m : ConnectionManager) : nat :=
  length (conns_ m).

(** *** The operations of ConnectionManager.cpp

    [this] names the manager the member function is called on; a call on
    a name that denotes no manager leaves the world as it is. *)

Definition scheduleTimeout (connection : ConnId) (timeout : Z) (w : World) :=
  if (0 <? timeout)%Z
  then MkWorld (managers w) (connectionManager w)
         (<[connection := timeout]> (timeouts w)) (trace w)
  else w.

Definition removeConnection (this : MgrId) (connection : ConnId) (w : World)
  : World :=
  if decide (connectionManager w !! connection = Some this) then
    match managers w !! this with
    | None => w
    | Some m =>
        let it := Some connection in
        let idleIterator :=
          if decide (it = idleIterator_ m)
          then next connection (conns_ m)
          else idleIterator_ m in
        let m' := withList (erase connection (conns_ m)) idleIterator m in
        let fired :=
          if callback_ m
          then OnConnectionRemoved this ::
               (if decide (getNumConnections m' = 0) then [OnEmpty this] else [])
          else [] in
        MkWorld (<[this := m']> (managers w))
          (delete connection (connectionManager w))
          (delete connection (timeouts w))
          (trace w ++ fired)
    end
  else w.

Definition addConnection (this : MgrId) (connection : ConnId) (timeout : bool)
    (w : World) : World :=
  let oldMgr := connectionManager w !! connection in
  let w1 :=
    if decide (oldMgr = Some this) then w
    else
      let w' :=
        match oldMgr with
        | Some old => removeConnection old connection w
        | None => w
        end in
      match managers w' !! this with
      | None => w'
      | Some m =>
          MkWorld
            (<[this := withList (connection :: conns_ m) (idleIterator_ m) m]>
               (managers w'))
            (<[connection := this]> (connectionManager w'))
            (timeouts w')
            (trace w' ++ if callback_ m then [OnConnectionAdded this] else [])
      end in
  if timeout then
    match managers w1 !! this with
    | Some m => scheduleTimeout connection (timeout_ m) w1
    | None => w1
    end
  else w1.

(** The outcome of the [while] loop of [drainAllConnections]: [remaining]
    holds the nodes from the local iterator [it] to the end of the list
    (so [it] is its head, or [end()] when it is empty). *)
Record Sweep : Type := MkSweep {
  remaining : list ConnId;
  numCleared : nat;
  numKept : nat;
  calls : list Event
}.

Fixpoint drainLoop (isBusy : ConnId -> bool) (action : ShutdownAction)
    (nodes : list ConnId) (cleared kept : nat) (made : list Event) : Sweep :=
  match nodes with
  | [] => MkSweep [] cleared kept made
  | conn :: rest =>
      if kept + cleared <? 64 then
        match action with
        | DRAIN1 =>
            drainLoop isBusy action rest cleared kept
              (made ++ [NotifyPendingShutdown conn])
        | DRAIN2 =>
            if isBusy conn
            then drainLoop isBusy action rest cleared (S kept)
                   (made ++ [CloseWhenIdle conn])
            else drainLoop isBusy action rest (S cleared) kept
                   (made ++ [CloseWhenIdle conn])
        end
      else MkSweep nodes cleared kept made
  end.

Definition sweepStart (m : ConnectionManager) : iterator :=
  match idleIterator_ m with
  | None => head (conns_ m)
  | Some c => Some c
  end.

Definition sweep (isBusy : ConnId -> bool) (m : ConnectionManager) : Sweep :=
  drainLoop isBusy (action_ m) (range (sweepStart m) (conns_ m)) 0 0 [].

Definition drainAllConnections (isBusy : ConnId -> bool) (this : MgrId)
    (w : World) : World :=
  match managers w !! this with
  | None => w
  | Some m =>
      let s := sweep isBusy m in
      let m' :=
        match head (remaining s) with
        | Some c =>
            withLoopCallback true (withList (conns_ m) (Some c) m)
        | None => withAction DRAIN2 m
        end in
      MkWorld (<[this := m']> (managers w)) (connectionManager w)
        (timeouts w) (trace w ++ calls s)
  end.

Definition initiateGracefulShutdown (isBusy : ConnId -> bool) (this : MgrId)
    (idleGrace : Z) (w : World) : World :=
  match managers w !! this with
  | None => w
  | Some m =>
      let m1 :=
        if (0 <? idleGrace)%Z
        then withGraceTimeout (Some idleGrace) m
        else withAction DRAIN2 m in
      drainAllConnections isBusy this (setManager this m1 w)
  end.

(** The [while (!conns_.empty())] loop of [dropAllConnections]; [i] is the
    counter of connections seen so far, an [unsigned] (32 bits), so [++i]
    wraps around at [2 ^ 32]. *)
Fixpoint dropLoop (l : list ConnId) (i : Z) (cm : gmap nat nat)
    (ts : gmap nat Z) (made : list Event)
  : gmap nat nat * gmap nat Z * list Event :=
  match l with
  | [] => (cm, ts, made)
  | conn :: rest =>
      let i' := ((i + 1) mod 2 ^ 32)%Z in
      let dump :=
        if (i' <=? 2)%Z then [DumpConnectionState conn 3] else [] in
      dropLoop rest i' (delete conn cm) (delete conn ts)
        (made ++ dump ++ [DropConnection conn])
  end.

Definition dropAllConnections (this : MgrId) (w : World) : World :=
  match managers w !! this with
  | None => w
  | Some m =>
      let '(cm, ts, made) :=
        dropLoop (conns_ m) 0%Z (connectionManager w) (timeouts w) [] in
      let m' :=
        withLoopCallback false (withGraceTimeout None (withList [] None m)) in
      MkWorld (<[this := m']> (managers w)) cm ts
        (trace w ++ made ++ if callback_ m then [OnEmpty this] else [])
  end.

Definition onActivated (this : MgrId) (conn : ConnId) (w : World) : World :=
  match managers w !! this with
  | None => w
  | Some m =>
      let it := Some conn in
      let idleIterator :=
        if decide (it = idleIterator_ m)
        then next conn (conns_ m)
        else idleIterator_ m in
      setManager this (withList (conn :: erase conn (conns_ m)) idleIterator m) w
  end.

Definition onDeactivated (this : MgrId) (conn : ConnId) (w : World) : World :=
  match managers w !! this with
  | None => w
  | Some m =>
      let l := erase conn (conns_ m) ++ [conn] in
      let idleIterator :=
        match idleIterator_ m with
        | None => last l
        | Some c => Some c
        end in
      setManager this (withList l idleIterator m) w
  end.

(** The [while (count < num)] loop of [dropIdleConnections]: [togo] is
    [num - count], [it] is [idleIterator_]. *)
Fixpoint dropIdleLoop (getIdleTime : ConnId -> Z) (threshold : Z)
    (l : list ConnId) (togo : nat) (it : iterator) (count : nat)
    (made : list Event) : nat * iterator * list Event :=
  match togo with
  | O => (count, it, made)
  | S togo' =>
      match it with
      | None => (count, it, made)
      | Some conn =>
          let idleTime := getIdleTime conn in
          if (idleTime =? 0)%Z || (idleTime <=? threshold)%Z
          then (count, it, made)
          else dropIdleLoop getIdleTime threshold l togo' (next conn l)
                 (S count) (made ++ [TimeoutExpired conn])
      end
  end.

Definition dropIdleConnections (getIdleTime : ConnId -> Z) (this : MgrId)
    (num : nat) (w : World) : nat * World :=
  match managers w !! this with
  | None => (0, w)
  | Some m =>
      if (timeout_ m <=? idleConnEarlyDropThreshold_ m)%Z then (0, w)
      else
        let '(count, it, made) :=
          dropIdleLoop getIdleTime (idleConnEarlyDropThreshold_ m) (conns_ m)
            num (idleIterator_ m) 0 [] in
        (count,
         MkWorld (<[this := withList (conns_ m) it m]> (managers w))
           (connectionManager w) (timeouts w) (trace w ++ made))
  end.

(** Modelled from the spec: the loop callback [idleLoopCallback_] is
    declared in ConnectionManager.h, which is not part of these sources;
    the shutdown is driven by repeated scheduled sweeps, so an iteration
    of the event loop that finds the callback queued takes it off the queue
    and runs one more sweep. *)
Definition runLoopCallback (isBusy : ConnId -> bool) (this : MgrId)
    (w : World) : World :=
  match managers w !! this with
  | None => w
  | Some m =>
      if loopCallbackScheduled m
      then drainAllConnections isBusy this
             (setManager this (withLoopCallback false m) w)
      else w
  end.

(** [k] iterations of the event loop. *)
Fixpoint loopIterations (isBusy : ConnId -> bool) (this : MgrId) (k : nat)
    (w : World) : World :=
  match k with
  | O => w
  | S k' => loopIterations isBusy this k' (runLoopCallback isBusy this w)
  end.

(** *** Calls on a manager *)

Inductive Call : Type :=
  | CallAddConnection (connection : ConnId) (timeout : bool)
  | CallRemoveConnection (connection : ConnId)
  | CallInitiateGracefulShutdown (idleGrace : Z)
  | CallDrainAllConnections
  | CallDropAllConnections
  | CallOnActivated (conn : ConnId)
  | CallOnDeactivated (conn : ConnId)
  | CallDropIdleConnections (num : nat).

Definition exec (isBusy : ConnId -> bool) (getIdleTime : ConnId -> Z)
    (this : MgrId) (c : Call) (w : World) : World :=
  match c with
  | CallAddConnection connection timeout => addConnection this connection timeout w
  | CallRemoveConnection connection => removeConnection this connection w
  | CallInitiateGracefulShutdown idleGrace =>
      initiateGracefulShutdown isBusy this idleGrace w
  | CallDrainAllConnections => drainAllConnections isBusy this w
  | CallDropAllConnections => dropAllConnections this w
  | CallOnActivated conn => onActivated this conn w
  | CallOnDeactivated conn => onDeactivated this conn w
  | CallDropIdleConnections num => (dropIdleConnections getIdleTime this num w).2
  end.

(** *** The bookkeeping between managers and connections

    Every manager's list has no node twice and a valid [idleIterator_],
    and a connection is linked into a manager's list exactly when it
    reports that manager. *)
Definition wellFormed (w : World) : Prop :=
  (forall g m, managers w !! g = Some m ->
     NoDup (conns_ m)
     /\ validIterator (idleIterator_ m) (conns_ m)
     /\ forall c, c ∈ conns_ m -> connectionManager w !! c = Some g)
  /\ (forall c g, connectionManager w !! c = Some g ->
        exists m, managers w !! g = Some m /\ c ∈ conns_ m).

(** [onActivated] and [onDeactivated] are called by a connection on the
    manager it reports. *)
Definition permitted (this : MgrId) (c : Call) (w : World) : Prop :=
  match c with
  | CallOnActivated conn | CallOnDeactivated conn =>
      connectionManager w !! conn = Some this
  | _ => True
  end.

(** *** Scenarios *)

(** One manager, named 0, freshly constructed. *)
Definition fresh (timeout : Z) (callback : bool) : World :=
  MkWorld {[0 := construct timeout callback]} ∅ ∅ [].

(** The connections 1 .. n added to it in turn, each with its timeout
    armed. *)
Definition withConnections (n : nat) : World :=
  foldl (fun w c => addConnection 0 c true w) (fresh 1000 true) (seq 1 n).

(** Two managers, 0 and 1, and the connection 7 added to manager 1. *)
Definition twoManagers : World :=
  addConnection 1 7 false
    (MkWorld {[0 := construct 1000 true; 1 := construct 1000 true]} ∅ ∅ []).

(** A manager with four connections, the last three of them idle for
    900, 700 and 100 milliseconds, and [idleIterator_] at the first idle
    one. *)
Definition idleTimes (c : ConnId) : Z :=
  match c with
  | 3 => 900%Z
  | 2 => 700%Z
  | 1 => 100%Z
  | _ => 0%Z
  end.

Definition threeIdle : World :=
  MkWorld {[0 := withList [4; 3; 2; 1] (Some 3) (construct 1000 true)]} ∅ ∅ [].

(** The test under which the loop of [dropIdleConnections] goes on to drop
    the connection it looks at. *)
Definition overThreshold (getIdleTime : ConnId -> Z) (threshold : Z)
    (c : ConnId) : bool :=
  negb ((getIdleTime c =? 0)%Z || (getIdleTime c <=? threshold)%Z).

(** The longest prefix whose elements satisfy [f]. *)
Fixpoint takeWhile {A} (f : A -> bool) (l : list A) : list A :=
  match l with
  | [] => []
  | x :: rest => if f x then x :: takeWhile f rest else []
  end.

(** The connection an event drops or dumps, if it is such an event. *)
Definition droppedConn (e : Event) : option ConnId :=
  match e with
  | DropConnection c => Some c
  | _ => None
  end.

Definition dumpedConn (e : Event) : option (ConnId * Z) :=
  match e with
  | DumpConnectionState c v => Some (c, v)
  | _ => None
  end.

End ConnMgr.


(* ===================================================================== *)
(** * Part II: properties                                                 *)
(* ===================================================================== *)

(** ** The priority queue *)

Module PriorityQueueFacts.
Import PriorityQueue.

Section Buckets.
Context {T : Type}.
Implicit Types (b : MPMCQueue T) (l : list (MPMCQueue T)).
Implicit Types (q : PriorityLifoSemMPMCQueue T).

Lemma resident_app l1 l2 : resident (l1 ++ l2) = resident l1 + resident l2.
Proof. induction l1 as [|b l1 IH]; simpl; [done|]. rewrite IH. lia. Qed.

Lemma resident_reverse l : resident (reverse l) = resident l.
Proof.
  induction l as [|b l IH]; [done|].
  rewrite reverse_cons, resident_app, IH. simpl. lia.
Qed.

Lemma resident_replicate n cap :
  resident (replicate n (MkMPMC cap ([] : list T))) = 0.
Proof. induction n; simpl; auto. Qed.

Lemma resident_insert l i b b' :
  l !! i = Some b ->
  resident (<[i := b']> l) + length (items b) = resident l + length (items b').
Proof.
  revert i. induction l as [|c l IH]; intros [|i] Hi; simplify_eq/=; [lia|].
  specialize (IH _ Hi). lia.
Qed.

Lemma read_none b : read b = None <-> items b = [].
Proof. unfold read. destruct (items b); split; congruence. Qed.

Lemma scanFrom_none l :
  scanFrom l = None <-> Forall (fun b => items b = []) l.
Proof.
  induction l as [|b l IH]; simpl.
  - split; auto.
  - destruct (read b) as [[x b']|] eqn:Hr.
    + split; [done|]. intros HF. apply Forall_cons in HF as [Hb _].
      apply read_none in Hb. congruence.
    + apply read_none in Hr.
      destruct (scanFrom l) as [[x l']|]; split; try done.
      * intros HF. apply Forall_cons in HF as [_ HF]. apply IH in HF. done.
      * intros _. constructor; [done|]. by apply IH.
Qed.

Lemma scanFrom_resident l x l' :
  scanFrom l = Some (x, l') -> resident l = S (resident l').
Proof.
  revert l'. induction l as [|b l IH]; intros l'; simpl; [done|].
  unfold read. destruct (items b) as [|y rest] eqn:Hb.
  - destruct (scanFrom l) as [[z l0]|]; [|done].
    intros [= <- <-]. simpl. rewrite Hb. simpl. by apply IH.
  - intros [= <- <-]. simpl. lia.
Qed.

(** A pass finds the first non-empty bucket in scan order. *)
Lemma scanFrom_first l1 b l2 x rest :
  Forall (fun c => items c = []) l1 ->
  items b = x :: rest ->
  scanFrom (l1 ++ b :: l2) = Some (x, l1 ++ MkMPMC (capacity b) rest :: l2).
Proof.
  intros HF Hb. induction HF as [|c l1 Hc HF IH]; simpl.
  - unfold read. by rewrite Hb.
  - unfold read. rewrite Hc, IH. done.
Qed.

Lemma scan_none l : scan l = None <-> Forall (fun b => items b = []) l.
Proof.
  unfold scan. destruct (scanFrom (reverse l)) as [[x l']|] eqn:Hs.
  - split; [done|]. intros HF.
    assert (scanFrom (reverse l) = None) as Hn; [|congruence].
    apply scanFrom_none. by apply Forall_reverse.
  - split; [|done]. intros _. apply scanFrom_none in Hs.
    apply Forall_reverse in Hs. by rewrite reverse_involutive in Hs.
Qed.

Lemma scan_resident l x l' :
  scan l = Some (x, l') -> resident l = S (resident l').
Proof.
  unfold scan. destruct (scanFrom (reverse l)) as [[y l0]|] eqn:Hs; [|done].
  intros [= <- <-]. apply scanFrom_resident in Hs.
  rewrite !resident_reverse in *. done.
Qed.

(** The highest non-empty bucket is the one a pass dequeues from. *)
Lemma scan_highest l i b x rest :
  l !! i = Some b ->
  items b = x :: rest ->
  (forall j c, i < j -> l !! j = Some c -> items c = []) ->
  scan l = Some (x, <[i := MkMPMC (capacity b) rest]> l).
Proof.
  intros Hi Hb Hhigh.
  destruct (list_elem_of_split_length l i b Hi) as (l1 & l2 & -> & Hlen).
  assert (Forall (fun c => items c = []) l2) as HF.
  { apply Forall_lookup. intros k c Hk.
    apply (Hhigh (length l1 + S k) c); [lia|].
    rewrite lookup_app_r by lia.
    replace (length l1 + S k - length l1) with (S k) by lia. done. }
  unfold scan. rewrite reverse_app, reverse_cons, <- app_assoc. simpl.
  rewrite (scanFrom_first (reverse l2) b (reverse l1) x rest);
    [|by apply Forall_reverse|done].
  f_equal. f_equal.
  rewrite reverse_app, reverse_cons, !reverse_involutive, <- app_assoc. simpl.
  subst i. rewrite insert_app_r_alt by lia.
  replace (length l1 - length l1) with 0 by lia. done.
Qed.

Lemma takeLoop_took sem l x l' :
  scan l = Some (x, l') -> takeLoop sem l = Took x (MkPQ sem l').
Proof. intros Hs. destruct sem; simpl; by rewrite Hs. Qed.

Lemma takeLoop_blocked sem l :
  scan l = None -> takeLoop sem l = Blocked (MkPQ 0 l).
Proof. intros Hs. induction sem as [|sem IH]; simpl; rewrite Hs; done. Qed.

Lemma size_resident q : size q = resident (queues_ q).
Proof. done. Qed.

Lemma write_some b x b' :
  write b x = Some b' ->
  length (items b) < capacity b /\ b' = MkMPMC (capacity b) (items b ++ [x]).
Proof.
  unfold write. destruct (length (items b) <? capacity b) eqn:Hlt; [|done].
  apply Nat.ltb_lt in Hlt. intros [= <-]. done.
Qed.

Lemma addWithPriority_added item p q q' :
  addWithPriority item p q = Added q' ->
  sem_ q' = S (sem_ q) /\ size q' = S (size q).
Proof.
  unfold addWithPriority.
  destruct (_ <? _)%Z; [|done].
  destruct (queues_ q !! _) as [b|] eqn:Hb; [|done].
  destruct (write b item) as [b'|] eqn:Hw; [|done].
  intros [= <-]. simpl. split; [done|].
  apply write_some in Hw as [_ ->].
  rewrite !size_resident. simpl.
  pose proof (resident_insert _ _ _ (MkMPMC (capacity b) (items b ++ [item])) Hb) as H.
  unfold size. simpl in *. rewrite length_app in H. simpl in H. lia.
Qed.

Lemma take_took q x q' :
  take q = Took x q' -> sem_ q' = sem_ q /\ size q = S (size q').
Proof.
  unfold take. destruct (scan (queues_ q)) as [[y l']|] eqn:Hs.
  - rewrite (takeLoop_took _ _ _ _ Hs). intros [= <- <-]. simpl. split; [done|].
    unfold size. simpl. exact (scan_resident _ _ _ Hs).
  - by rewrite (takeLoop_blocked _ _ Hs).
Qed.

Lemma take_blocked q q' :
  take q = Blocked q' -> sem_ q' = 0 /\ size q' = 0 /\ queues_ q' = queues_ q.
Proof.
  unfold take. destruct (scan (queues_ q)) as [[y l']|] eqn:Hs.
  - by rewrite (takeLoop_took _ _ _ _ Hs).
  - rewrite (takeLoop_blocked _ _ Hs). intros [= <-]. simpl.
    repeat split; try done. unfold size. simpl.
    apply scan_none in Hs. induction Hs as [|b l Hb _ IH]; simpl; [done|].
    rewrite Hb. simpl. done.
Qed.

Lemma bucketOf_clamp q p :
  int8 p -> 1 <= length (queues_ q) <= 255 ->
  let n := Z.of_nat (length (queues_ q)) in
  bucketOf q p = clamp (n / 2 + p) 0 (n - 1)
  /\ (0 <= clamp (n / 2 + p) 0 (n - 1) < n)%Z.
Proof.
  intros Hp Hn n. unfold bucketOf, getNumPriorities, clamp, int8 in *.
  fold n. assert (1 <= n <= 255)%Z as Hn' by lia.
  rewrite (Z.mod_small n 256) by lia.
  assert (0 <= n / 2 <= n - 1)%Z as Hmid.
  { split; [apply Z.div_pos; lia|].
    assert (n / 2 < n)%Z; [|lia]. apply Z.div_lt; lia. }
  change (2 ^ 64)%Z with 18446744073709551616%Z.
  destruct (Z.ltb_spec p 0); (split; [rewrite Z.mod_small|]); lia.
Qed.

(** C2, as amended: in every state reached by calling [add],
    [addWithPriority] and [take] one after the other, the semaphore's
    count is at least the number of items resident in the buckets.  (Every
    successful add posts once; [take] waits on the semaphore only after a
    pass that found every bucket empty, so a [take] that finds an item
    leaves the count as it was.) *)
Theorem semaphore_count_covers_resident q :
  reachable q -> count_covers_resident q.
Proof.
  unfold count_covers_resident.
  induction 1 as [n cap q Hc|q q' _ IH Hstep].
  - unfold construct in Hc. destruct (n <=? 127); [|done].
    injection Hc as <-. unfold size. simpl. rewrite resident_replicate. lia.
  - destruct Hstep as [item q q' Ha|item p q q' _ Ha|x q q' Ht|q q' Ht].
    + apply addWithPriority_added in Ha as [-> ->]. lia.
    + apply addWithPriority_added in Ha as [-> ->]. lia.
    + apply take_took in Ht as [-> Hsz]. lia.
    + apply take_blocked in Ht as (-> & -> & _). lia.
Qed.

(** C4: with [numBuckets] buckets (at least one, and as many as a
    [uint8_t] counts), [addWithPriority item p] targets the bucket
    [clamp (mid + p) 0 (numBuckets - 1)] with [mid = numBuckets / 2]: when
    that bucket has room the item is appended to it and the semaphore is
    posted once, and when its capacity is exhausted the call fails with the
    queue-full error.  With five buckets the priorities -10, -1, 0, 1, 10
    go to the buckets 0, 1, 2, 3, 4. *)
Theorem addWithPriority_clamped_bucket q (item : T) (p : Z) :
  int8 p -> 1 <= length (queues_ q) <= 255 ->
  let numBuckets := Z.of_nat (length (queues_ q)) in
  let mid := (numBuckets / 2)%Z in
  let target := Z.to_nat (clamp (mid + p) 0 (numBuckets - 1)) in
  (exists b, queues_ q !! target = Some b /\
     (length (items b) < capacity b ->
        addWithPriority item p q =
          Added (MkPQ (S (sem_ q))
                   (<[target := MkMPMC (capacity b) (items b ++ [item])]>
                      (queues_ q)))) /\
     (capacity b <= length (items b) ->
        addWithPriority item p q = QueueFull))
  /\ (forall cap q5, construct T 5 cap = Some q5 ->
        bucketOf q5 <$> [-10; -1; 0; 1; 10]%Z = [0; 1; 2; 3; 4]%Z).
Proof.
  intros Hp Hn numBuckets mid target. split.
  - destruct (bucketOf_clamp q p Hp Hn) as [Hb Hrange].
    fold numBuckets mid in Hb, Hrange.
    destruct (lookup_lt_is_Some_2 (queues_ q) target) as [b Hlk].
    { unfold target. lia. }
    exists b. split; [done|]. unfold addWithPriority. rewrite Hb.
    fold target. rewrite Hlk.
    destruct (Z.ltb_spec (clamp (mid + p) 0 (numBuckets - 1))
                (Z.of_nat (length (queues_ q)))); [|lia].
    unfold write. split; intros Hcap.
    + apply Nat.ltb_lt in Hcap. by rewrite Hcap.
    + apply Nat.ltb_ge in Hcap. by rewrite Hcap.
  - intros cap q5 [= <-]. reflexivity.
Qed.

(** C5: [take] scans from the highest bucket down and returns the item at
    the front of the highest bucket that is not empty, leaving the
    semaphore's count as it was; in a queue of five buckets holding one
    item added at priority +2 and one added at priority -2 (in either
    order), two calls of [take] return the +2 item and then the -2 item. *)
Theorem take_highest_nonempty q (i : nat) b (x : T) (rest : list T) :
  queues_ q !! i = Some b ->
  items b = x :: rest ->
  (forall j c, i < j -> queues_ q !! j = Some c -> items c = []) ->
  take q = Took x (MkPQ (sem_ q) (<[i := MkMPMC (capacity b) rest]> (queues_ q)))
  /\ (forall (hi lo : T) cap q0, 1 <= cap -> construct T 5 cap = Some q0 ->
        (exists q1 q2 q3 q4,
           addWithPriority hi 2 q0 = Added q1 /\
           addWithPriority lo (-2) q1 = Added q2 /\
           take q2 = Took hi q3 /\ take q3 = Took lo q4)
        /\ (exists q1 q2 q3 q4,
           addWithPriority lo (-2) q0 = Added q1 /\
           addWithPriority hi 2 q1 = Added q2 /\
           take q2 = Took hi q3 /\ take q3 = Took lo q4)).
Proof.
  intros Hi Hb Hhigh. split.
  - unfold take. apply takeLoop_took. by apply scan_highest.
  - intros hi lo [|cap] q0 Hcap [= <-]; [lia|].
    split; do 4 eexists; repeat split; reflexivity.
Qed.

(** X3: [take] is left waiting exactly when every bucket is empty, the
    count having been used up by then; otherwise it returns an item, takes one
    out of the buckets and leaves the count alone. *)
Theorem take_blocks_when_empty q :
  (size q = 0 -> take q = Blocked (MkPQ 0 (queues_ q)))
  /\ (size q <> 0 ->
      exists x q', take q = Took x q'
                   /\ sem_ q' = sem_ q /\ S (size q') = size q).
Proof.
  unfold take. destruct (scan (queues_ q)) as [[x l']|] eqn:Hs.
  - pose proof (scan_resident _ _ _ Hs) as Hres. split.
    + unfold size. lia.
    + intros _. exists x, (MkPQ (sem_ q) l').
      rewrite (takeLoop_took _ _ _ _ Hs). unfold size. simpl. done.
  - split.
    + intros _. by apply takeLoop_blocked.
    + intros Hne. exfalso. apply Hne. apply scan_none in Hs. unfold size.
      induction Hs as [|b l Hb _ IH]; simpl; [done|]. rewrite Hb. simpl. done.
Qed.

(** X4: [size] goes up by one with every item added and down by one with
    every item taken. *)
Theorem size_counts_adds_and_takes q :
  (forall item p q', addWithPriority item p q = Added q' -> size q' = S (size q))
  /\ (forall x q', take q = Took x q' -> size q = S (size q')).
Proof.
  split.
  - intros item p q' Ha. by apply addWithPriority_added in Ha as [_ ->].
  - intros x q' Ht. by apply take_took in Ht as [_ ->].
Qed.

(** *** Priorities and buckets *)

Lemma addWithPriority_at q (item : T) (p : Z) (k : nat) b :
  bucketOf q p = Z.of_nat k ->
  queues_ q !! k = Some b ->
  addWithPriority item p q
  = if length (items b) <? capacity b
    then Added (MkPQ (S (sem_ q))
                  (<[k := MkMPMC (capacity b) (items b ++ [item])]> (queues_ q)))
    else QueueFull.
Proof.
  intros Hk Hb. unfold addWithPriority. rewrite Hk, Nat2Z.id, Hb.
  pose proof (lookup_lt_Some _ _ _ Hb) as Hlt.
  destruct (Z.ltb_spec (Z.of_nat k) (Z.of_nat (length (queues_ q)))); [|lia].
  unfold write. by destruct (length (items b) <? capacity b).
Qed.

(** X6: the bucket grows with the priority: a higher priority never lands
    in a lower bucket, every priority at or below [- mid] lands in bucket 0
    and every priority at or above [numBuckets - 1 - mid] in the highest
    bucket. *)
Theorem bucketOf_monotone q (p1 p2 : Z) :
  int8 p1 -> int8 p2 -> 1 <= length (queues_ q) <= 255 ->
  let n := Z.of_nat (length (queues_ q)) in
  ((p1 <= p2)%Z -> (bucketOf q p1 <= bucketOf q p2)%Z)
  /\ ((p1 <= - (n / 2))%Z -> bucketOf q p1 = 0%Z)
  /\ ((n - 1 - n / 2 <= p1)%Z -> bucketOf q p1 = (n - 1)%Z).
Proof.
  intros Hp1 Hp2 Hn n.
  destruct (bucketOf_clamp q p1 Hp1 Hn) as [-> _].
  destruct (bucketOf_clamp q p2 Hp2 Hn) as [-> _].
  fold n. unfold clamp.
  assert (0 <= n / 2 <= n - 1)%Z.
  { assert (1 <= n)%Z by (unfold n; lia). split; [apply Z.div_pos; lia|].
    assert (n / 2 < n)%Z; [|lia]. apply Z.div_lt; lia. }
  repeat split; lia.
Qed.

(** X7: [add] enqueues into the middle bucket [numBuckets / 2] and nowhere
    else: it succeeds exactly when that bucket has room, posting the
    semaphore once, and fails with the queue-full error when that bucket
    is full, whatever room the other buckets have. *)
Theorem add_middle_bucket q (item : T) :
  1 <= length (queues_ q) <= 255 ->
  let mid := length (queues_ q) / 2 in
  exists b, queues_ q !! mid = Some b
    /\ (length (items b) < capacity b ->
        add item q
        = Added (MkPQ (S (sem_ q))
                   (<[mid := MkMPMC (capacity b) (items b ++ [item])]>
                      (queues_ q))))
    /\ (capacity b <= length (items b) -> add item q = QueueFull).
Proof.
  intros Hn mid.
  assert (bucketOf q MID_PRI = Z.of_nat mid) as Hmid.
  { destruct (bucketOf_clamp q MID_PRI) as [-> _]; [unfold int8, MID_PRI; lia|done|].
    unfold clamp, MID_PRI, mid. rewrite Nat2Z.inj_div. simpl (Z.of_nat 2).
    set (n := Z.of_nat (length (queues_ q))).
    assert (0 <= n / 2 <= n - 1)%Z.
    { assert (1 <= n)%Z by (unfold n; lia). split; [apply Z.div_pos; lia|].
      assert (n / 2 < n)%Z; [|lia]. apply Z.div_lt; lia. }
    lia. }
  destruct (lookup_lt_is_Some_2 (queues_ q) mid) as [b Hb].
  { apply Nat.div_lt; lia. }
  exists b. split; [done|]. unfold add.
  rewrite (addWithPriority_at q item MID_PRI mid b Hmid Hb). split; intros Hcap.
  - apply Nat.ltb_lt in Hcap. by rewrite Hcap.
  - apply Nat.ltb_ge in Hcap. by rewrite Hcap.
Qed.

(** X8: a queue with no bucket accepts nothing: every [addWithPriority]
    and [add] stops at the [CHECK] on the bucket index, and [take] is left
    waiting. *)
Theorem no_bucket_no_add q (item : T) (p : Z) :
  int8 p -> queues_ q = [] ->
  addWithPriority item p q = CheckFailed
  /\ add item q = CheckFailed
  /\ take q = Blocked (MkPQ 0 []).
Proof.
  intros Hp Hq.
  assert (forall p', addWithPriority item p' q = CheckFailed) as Hadd.
  { intros p'. unfold addWithPriority. cbv zeta. rewrite Hq.
    destruct (Z.ltb_spec (bucketOf q p') (Z.of_nat (length (@nil (MPMCQueue T)))))
      as [Hlt|_]; [|done].
    exfalso. assert (0 <= bucketOf q p')%Z as Hpos.
    { unfold bucketOf. apply Z.mod_pos_bound. reflexivity. }
    simpl length in Hlt. lia. }
  split; [apply Hadd|]. split; [apply Hadd|].
  unfold take. rewrite Hq. by apply takeLoop_blocked.
Qed.

(** *** Emptying the queue *)

Lemma highestFirst_app l1 l2 :
  highestFirst (l1 ++ l2) = highestFirst l2 ++ highestFirst l1.
Proof.
  induction l1 as [|b l1 IH]; simpl; [by rewrite app_nil_r|].
  by rewrite IH, app_assoc.
Qed.

Lemma highestFirst_empty l :
  Forall (fun b => items b = []) l -> highestFirst l = [] /\ emptied <$> l = l.
Proof.
  induction 1 as [|b l Hb _ [IH1 IH2]]; [done|]. split.
  - simpl. by rewrite IH1, Hb.
  - rewrite fmap_cons, IH2. f_equal.
    destruct b as [cap its]. simpl in Hb. by rewrite Hb.
Qed.

Lemma resident_zero l : resident l = 0 -> Forall (fun b => items b = []) l.
Proof.
  induction l as [|b l IH]; simpl; intros Hr; constructor.
  - destruct (items b); [done|simpl in Hr; lia].
  - apply IH. lia.
Qed.

Lemma highest_nonempty l :
  resident l <> 0 ->
  exists l1 b l2 x rest,
    l = l1 ++ b :: l2 /\ items b = x :: rest
    /\ Forall (fun c => items c = []) l2.
Proof.
  induction l as [|b l IH] using rev_ind; [done|].
  rewrite resident_app. simpl. intros Hr.
  destruct (items b) as [|x rest] eqn:Hb.
  - destruct IH as (l1 & c & l2 & x & rest & -> & Hc & Hl2); [simpl in Hr; lia|].
    exists l1, c, (l2 ++ [b]), x, rest. rewrite <- app_assoc. simpl.
    split; [done|]. split; [done|]. apply Forall_app. split; [done|].
    by constructor.
  - exists l, b, [], x, rest. done.
Qed.

(** X9: as many calls of [take] as there are resident items return all of
    them, the items of a higher bucket before those of a lower one and
    those of one bucket from its front, leave every bucket empty and never
    touch the semaphore's count. *)
Theorem takeMany_drains q :
  takeMany (size q) q
  = (highestFirst (queues_ q), MkPQ (sem_ q) (emptied <$> queues_ q)).
Proof.
  remember (size q) as n eqn:Hn. revert q Hn.
  induction n as [|n IH]; intros [sem l] Hn; unfold size in Hn; simpl in *.
  - destruct (highestFirst_empty l) as [-> ->]; [by apply resident_zero|done].
  - destruct (highest_nonempty l) as (l1 & b & l2 & x & rest & -> & Hb & Hl2);
      [lia|].
    assert (scan (l1 ++ b :: l2)
            = Some (x, l1 ++ MkMPMC (capacity b) rest :: l2)) as Hs.
    { rewrite (scan_highest (l1 ++ b :: l2) (length l1) b x rest).
      - rewrite insert_app_r_alt by lia.
        replace (length l1 - length l1) with 0 by lia. done.
      - rewrite lookup_app_r by lia.
        replace (length l1 - length l1) with 0 by lia. done.
      - done.
      - intros j c Hj Hc. rewrite lookup_app_r in Hc by lia.
        destruct (j - length l1) as [|k] eqn:Hk; [lia|]. simpl in Hc.
        rewrite Forall_lookup in Hl2. by apply (Hl2 k). }
    unfold take. simpl. rewrite (takeLoop_took _ _ _ _ Hs).
    rewrite (IH (MkPQ sem (l1 ++ MkMPMC (capacity b) rest :: l2))).
    + simpl. destruct (highestFirst_empty l2 Hl2) as [He _].
      rewrite !highestFirst_app. simpl. rewrite He, Hb. simpl.
      by rewrite !fmap_app, !fmap_cons.
    + unfold size. simpl. rewrite resident_app in Hn |- *. simpl in *.
      rewrite Hb in Hn. simpl in Hn. lia.
Qed.

End Buckets.

(** C2, as the specification states it, fails: after one [add] and one
    [take] the count is 1 and no item is resident. *)
Lemma semaphore_count_exceeds_resident :
  ~ (forall q : PriorityLifoSemMPMCQueue nat,
       reachable q -> count_equals_resident q).
Proof.
  intros Hall.
  pose (q0 := MkPQ 0 [MkMPMC 1 ([] : list nat)]).
  pose (q1 := MkPQ 1 [MkMPMC 1 [7]]).
  pose (q2 := MkPQ 1 [MkMPMC 1 ([] : list nat)]).
  assert (reachable q2) as Hr.
  { apply (reachable_step q1).
    - apply (reachable_step q0).
      + by apply (reachable_init 1 1).
      + by apply (step_add 7).
    - by apply (step_take_item 7). }
  specialize (Hall q2 Hr). discriminate Hall.
Qed.

Lemma semaphore_count_covers_resident_witness :
  count_covers_resident (MkPQ 1 [MkMPMC 1 ([] : list nat)]).
Proof.
  apply semaphore_count_covers_resident.
  apply (reachable_step (MkPQ 1 [MkMPMC 1 [7]])).
  - apply (reachable_step (MkPQ 0 [MkMPMC 1 ([] : list nat)])).
    + apply (reachable_init 1 1). reflexivity.
    + apply (step_add 7). reflexivity.
  - apply (step_take_item 7). reflexivity.
Defined.

Lemma addWithPriority_clamped_bucket_witness :
  let q := MkPQ 0 (replicate 5 (MkMPMC 1 ([] : list nat))) in
  addWithPriority 7 10%Z q
  = Added (MkPQ 1 (<[4 := MkMPMC 1 [7]]> (queues_ q))).
Proof.
  intros q.
  destruct (addWithPriority_clamped_bucket q 7 10%Z) as [(b & Hb & Hroom & _) _].
  - unfold int8. lia.
  - simpl. lia.
  - vm_compute in Hb. injection Hb as <-. apply Hroom. simpl. lia.
Defined.

Lemma bucketOf_monotone_witness :
  (bucketOf (MkPQ 0 (replicate 5 (MkMPMC 1 ([] : list nat)))) (-1)
   <= bucketOf (MkPQ 0 (replicate 5 (MkMPMC 1 ([] : list nat)))) 1)%Z.
Proof.
  refine (proj1 (bucketOf_monotone
                   (MkPQ 0 (replicate 5 (MkMPMC 1 ([] : list nat))))
                   (-1) 1 _ _ _) _).
  - unfold int8. lia.
  - unfold int8. lia.
  - simpl. lia.
  - lia.
Defined.

Lemma add_middle_bucket_witness :
  add 7 (MkPQ 0 (replicate 5 (MkMPMC 1 ([] : list nat))))
  = Added (MkPQ 1 (<[2 := MkMPMC 1 [7]]> (replicate 5 (MkMPMC 1 [])))).
Proof.
  destruct (add_middle_bucket
              (MkPQ 0 (replicate 5 (MkMPMC 1 ([] : list nat)))) 7)
    as (b & Hb & Hroom & _).
  - simpl. lia.
  - vm_compute in Hb. injection Hb as <-. apply Hroom. simpl. lia.
Defined.

Lemma no_bucket_no_add_witness :
  addWithPriority 7 3%Z (MkPQ 0 ([] : list (MPMCQueue nat))) = CheckFailed.
Proof.
  refine (proj1 (no_bucket_no_add (MkPQ 0 []) 7 3%Z _ _)).
  - unfold int8. lia.
  - reflexivity.
Defined.

Lemma take_highest_nonempty_witness :
  let q := MkPQ 2 [MkMPMC 1 [3]; MkMPMC 1 []; MkMPMC 1 []; MkMPMC 1 [];
                   MkMPMC 1 [5]] in
  take q = Took 5 (MkPQ 2 (<[4 := MkMPMC 1 []]> (queues_ q))).
Proof.
  intros q.
  refine (proj1 (take_highest_nonempty q 4 (MkMPMC 1 [5]) 5 [] _ _ _)).
  - reflexivity.
  - reflexivity.
  - intros j c Hj Hlk. apply lookup_lt_Some in Hlk. simpl in Hlk. lia.
Defined.

End PriorityQueueFacts.

(** ** The length-field prepender *)

Module PrependerFacts.
Import Prepender.

Lemma bigEndianValue_snoc (bs : list Z) (b : Z) :
  bigEndianValue (bs ++ [b]) = (bigEndianValue bs * 256 + b)%Z.
Proof. unfold bigEndianValue. by rewrite foldl_app. Qed.

Lemma littleEndian_length (n : nat) (v : Z) : length (littleEndian n v) = n.
Proof. revert v. induction n as [|n IH]; intros v; simpl; [done|]. by rewrite IH. Qed.

Lemma littleEndian_bytes (n : nat) (v : Z) :
  Forall (fun b => (0 <= b < 256)%Z) (littleEndian n v).
Proof.
  revert v. induction n as [|n IH]; intros v; simpl; constructor; [|apply IH].
  apply Z.mod_pos_bound. lia.
Qed.

(** Read back as a big-endian number, the field is the length it encodes,
    up to what [n] bytes hold. *)
Lemma bigEndianValue_littleEndian (n : nat) (v : Z) :
  bigEndianValue (reverse (littleEndian n v)) = (v mod 256 ^ Z.of_nat n)%Z.
Proof.
  revert v. induction n as [|n IH]; intros v.
  - simpl. by rewrite Z.mod_1_r.
  - simpl littleEndian. rewrite reverse_cons, bigEndianValue_snoc, IH.
    rewrite Nat2Z.inj_succ, Z.pow_succ_r by lia.
    rewrite (Z.rem_mul_r v 256 (256 ^ Z.of_nat n)) by lia. lia.
Qed.

Lemma littleEndianValue_littleEndian (n : nat) (v : Z) :
  littleEndianValue (littleEndian n v) = (v mod 256 ^ Z.of_nat n)%Z.
Proof.
  revert v. induction n as [|n IH]; intros v.
  - simpl. by rewrite Z.mod_1_r.
  - simpl littleEndian. cbn [littleEndianValue foldr].
    fold (littleEndianValue (littleEndian n (v / 256))). rewrite IH.
    rewrite Nat2Z.inj_succ, Z.pow_succ_r by lia.
    rewrite (Z.rem_mul_r v 256 (256 ^ Z.of_nat n)) by lia. lia.
Qed.

Lemma lengthField_length (o : bool) (n : nat) (v : Z) :
  length (lengthField o n v) = n.
Proof.
  unfold lengthField. destruct o; [rewrite length_reverse|];
    apply littleEndian_length.
Qed.

(** C8: [write] takes as length the payload's byte length plus the
    adjustment, plus the field length when the field counts itself; it
    fails with the encoding error when that length is negative or does not
    fit in the field's bytes; otherwise it emits the field (as many bytes as
    configured, denoting the length in the configured byte order: most
    significant byte first in network byte order, least significant byte
    first otherwise) followed by the payload as it was.
    [LengthFieldPrepender(2)] turns a 12-byte payload into 0x00 0x0C and the
    payload, and into 0x00 0x0E and the payload when the field counts
    itself; without network byte order the two bytes are 0x0C 0x00. *)
Theorem write_prepends_length (p : LengthFieldPrepender) (buf : list Z) :
  let n := lengthFieldLength_ p in
  let len :=
    (Z.of_nat (length buf) + lengthAdjustment_ p
     + (if lengthIncludesLengthField_ p then n else 0))%Z in
  ((len < 0 \/ 256 ^ n <= len)%Z -> write p buf = EncodingError)
  /\ ((0 <= len < 256 ^ n)%Z ->
      exists field,
        write p buf = Forwarded (field ++ buf)
        /\ length field = Z.to_nat n
        /\ Forall (fun b => (0 <= b < 256)%Z) field
        /\ (networkByteOrder_ p = true -> bigEndianValue field = len)
        /\ (networkByteOrder_ p = false -> littleEndianValue field = len))
  /\ (forall payload, length payload = 12 ->
        write (construct1 2) payload = Forwarded ([0; 12]%Z ++ payload)
        /\ write (MkPrepender 2 0 true true) payload
           = Forwarded ([0; 14]%Z ++ payload)
        /\ write (MkPrepender 2 0 false false) payload
           = Forwarded ([12; 0]%Z ++ payload)).
Proof.
  intros n len. unfold write. fold (frameLength p buf).
  change (frameLength p buf) with len. fold n. repeat split.
  - intros [Hneg|Hbig].
    + destruct (Z.ltb_spec len 0); [done|lia].
    + destruct (Z.ltb_spec len 0); [done|].
      destruct (Z.leb_spec (256 ^ n) len); [done|lia].
  - intros [Hlo Hhi].
    destruct (Z.ltb_spec len 0); [lia|].
    destruct (Z.leb_spec (256 ^ n) len); [lia|].
    assert (0 <= n)%Z as Hn.
    { destruct (Z.lt_ge_cases n 0) as [Hn|Hn]; [|lia].
      rewrite Z.pow_neg_r in Hhi by lia. lia. }
    eexists. split; [reflexivity|]. split; [apply lengthField_length|].
    split; [|split].
    + unfold lengthField. destruct (networkByteOrder_ p);
        [apply Forall_reverse|]; apply littleEndian_bytes.
    + intros ->. unfold lengthField. rewrite bigEndianValue_littleEndian.
      rewrite Z2Nat.id by lia. apply Z.mod_small. lia.
    + intros ->. unfold lengthField. rewrite littleEndianValue_littleEndian.
      rewrite Z2Nat.id by lia. apply Z.mod_small. lia.
  - unfold write, frameLength. rewrite H. reflexivity.
  - unfold write, frameLength. rewrite H. reflexivity.
  - unfold write, frameLength. rewrite H. reflexivity.
Qed.

End PrependerFacts.

(** ** The entry points of the pipeline *)

Module PipelineFacts.
Import PipelineEntryPoints.

Lemma is_same_Unit (T : MsgType) : is_same T Unit = true <-> T = Unit.
Proof. destruct T; simpl; split; congruence. Qed.

(** C9, as amended: in a pipeline whose outbound type is [Unit] a call of
    [write] or [close] that names no template argument does not compile,
    and in one whose inbound type is [Unit] a call of [read], [readEOF],
    [readException], [transportActive] or [transportInactive] that names
    none does not compile; such a call is rejected only in that way, and
    the rejection is the compiler's (no run-time outcome exists for it).
    A call that names its template argument is rejected exactly when the
    named type is [Unit], whatever the types of the pipeline. *)
Theorem unit_direction_disabled :
  (forall R, call R Unit write = Rejected /\ call R Unit close = Rejected)
  /\ (forall W,
        call Unit W read = Rejected /\ call Unit W readEOF = Rejected
        /\ call Unit W readException = Rejected
        /\ call Unit W transportActive = Rejected
        /\ call Unit W transportInactive = Rejected)
  /\ (forall R W e, call R W e = Rejected <-> defaultT R W e = Unit)
  /\ (forall R W e, callNaming R W e None = call R W e)
  /\ (forall R W e T, callNaming R W e (Some T) = Rejected <-> T = Unit).
Proof.
  split; [|split; [|split; [|split]]].
  - intros R. split; reflexivity.
  - intros W. repeat split; reflexivity.
  - intros R W e. unfold call, declaredType.
    destruct e; simpl; (destruct R, W; simpl; split; congruence).
  - reflexivity.
  - intros R W e T. unfold callNaming, declaredType.
    destruct e; simpl; (destruct T; simpl; split; congruence).
Qed.

(** C9, as the specification states it, fails: on a pipeline whose
    outbound type is [Unit], the call [write<T>(...)] that names a message
    type for [T] passes the guard of the declaration and compiles. *)
Lemma named_template_argument_compiles : ~ everyCallDisabled.
Proof.
  intros [Hout _].
  specialize (Hout (Message 0) (Some (Message 0)) write eq_refl).
  discriminate Hout.
Qed.

End PipelineFacts.

(** ** The connection manager *)

Module ConnMgrFacts.
Import ConnMgr.

(** *** The intrusive list and its iterators *)

Lemma erase_elem_of (c x : nat) (l : list nat) :
  NoDup l -> x ∈ erase c l <-> x ∈ l /\ x <> c.
Proof.
  induction l as [|y l IH]; intros Hnd; simpl.
  - split; [inversion 1|intros [H _]; inversion H].
  - apply NoDup_cons in Hnd as [Hy Hnd]. destruct (decide (y = c)) as [->|Hne].
    + rewrite elem_of_cons. split.
      * intros Hx. split; [by right|]. intros ->. done.
      * intros [[->|Hx] Hxc]; done.
    + rewrite !elem_of_cons, IH by done. split.
      * intros [->|[Hx Hxc]]; split; auto.
      * intros [[->|Hx] Hxc]; auto.
Qed.

Lemma erase_length (c : nat) (l : list nat) :
  c ∈ l -> S (length (erase c l)) = length l.
Proof.
  induction l as [|y l IH]; intros Hc; simpl; [inversion Hc|].
  destruct (decide (y = c)) as [->|Hne]; [done|]. simpl.
  apply elem_of_cons in Hc as [->|Hc]; [done|]. by rewrite IH.
Qed.

Lemma erase_NoDup (c : nat) (l : list nat) : NoDup l -> NoDup (erase c l).
Proof.
  induction l as [|y l IH]; intros Hnd; simpl; [done|].
  pose proof Hnd as Hnd'. apply NoDup_cons in Hnd as [Hy Hnd].
  destruct (decide (y = c)); [done|]. apply NoDup_cons. split; [|by apply IH].
  rewrite erase_elem_of by done. tauto.
Qed.

Lemma next_elem_of (c d : nat) (l : list nat) :
  NoDup l -> next c l = Some d -> d ∈ l /\ d <> c.
Proof.
  induction l as [|y l IH]; intros Hnd; simpl; [done|].
  apply NoDup_cons in Hnd as [Hy Hnd]. destruct (decide (y = c)) as [->|Hne].
  - destruct l as [|z l]; simpl; [done|]. intros [= ->].
    split; [apply elem_of_cons; right; apply elem_of_cons; by left|].
    intros ->. apply Hy. apply elem_of_cons. by left.
  - intros Hn. destruct (IH Hnd Hn) as [Hd Hdc]. split; [|done].
    apply elem_of_cons. by right.
Qed.

Lemma next_valid (c : nat) (l : list nat) :
  NoDup l -> validIterator (next c l) (erase c l).
Proof.
  intros Hnd. destruct (next c l) as [d|] eqn:Hn; simpl; [|done].
  apply erase_elem_of; [done|]. by apply next_elem_of.
Qed.

Lemma nodesFrom_skip (d x : nat) (l : list nat) :
  d <> x -> nodesFrom d (x :: l) = nodesFrom d l.
Proof. intros Hd. simpl. destruct (decide (x = d)); congruence. Qed.

(** The nodes from a linked node are that node and the nodes from its
    successor. *)
Lemma nodesFrom_next (c : nat) (l : list nat) :
  NoDup l -> c ∈ l -> nodesFrom c l = c :: range (next c l) l.
Proof.
  induction l as [|y l IH]; intros Hnd Hc; [inversion Hc|].
  apply NoDup_cons in Hnd as [Hy Hnd]. simpl.
  destruct (decide (y = c)) as [->|Hne].
  - f_equal. destruct l as [|z l]; simpl; [done|].
    destruct (decide (c = z)) as [->|_].
    + exfalso. apply Hy. apply elem_of_cons. by left.
    + by destruct (decide (z = z)).
  - apply elem_of_cons in Hc as [->|Hc]; [done|]. rewrite (IH Hnd Hc).
    f_equal. destruct (next c l) as [d|] eqn:Hn; simpl; [|done].
    destruct (next_elem_of _ _ _ Hnd Hn) as [Hd _].
    destruct (decide (y = d)) as [->|_]; done.
Qed.

Lemma next_valid_same (c : nat) (l : list nat) :
  NoDup l -> validIterator (next c l) l.
Proof.
  intros Hnd. destruct (next c l) as [d|] eqn:Hn; simpl; [|done].
  by apply (next_elem_of c).
Qed.

Lemma takeWhile_Forall {A} (f : A -> bool) (l : list A) :
  Forall (fun x => f x = true) (takeWhile f l).
Proof.
  induction l as [|x l IH]; simpl; [constructor|].
  destruct (f x) eqn:Hf; constructor; done.
Qed.

Lemma takeWhile_ext {A} (f g : A -> bool) (l : list A) :
  (forall x, f x = g x) -> takeWhile f l = takeWhile g l.
Proof.
  intros Hfg. induction l as [|x l IH]; simpl; [done|].
  rewrite Hfg, IH. done.
Qed.

Lemma range_valid_head (it : option nat) (l : list nat) :
  validIterator it l -> head (range it l) = it.
Proof.
  destruct it as [c|]; simpl; [|done]. intros Hc.
  induction l as [|y l IH]; [inversion Hc|]. simpl.
  destruct (decide (y = c)) as [->|Hne]; [done|].
  apply elem_of_cons in Hc as [->|Hc]; [done|]. by apply IH.
Qed.

Lemma nodesFrom_suffix_of (c : nat) (l : list nat) :
  nodesFrom c l `suffix_of` l.
Proof.
  induction l as [|x l IH]; simpl; [done|].
  destruct (decide (x = c)); [done|]. by apply suffix_cons_r.
Qed.

Lemma erase_notin (c : nat) (l : list nat) : c ∉ l -> erase c l = l.
Proof.
  induction l as [|x l IH]; intros Hc; simpl; [done|].
  destruct (decide (x = c)) as [->|_].
  - exfalso. apply Hc. apply elem_of_cons. by left.
  - f_equal. apply IH. intros Hin. apply Hc. apply elem_of_cons. by right.
Qed.

Lemma nodesFrom_elem_of (d x : nat) (l : list nat) :
  x ∈ nodesFrom d l -> x ∈ l.
Proof.
  destruct (nodesFrom_suffix_of d l) as [pre Hpre]. intros Hx.
  rewrite Hpre. apply elem_of_app. by right.
Qed.

Lemma nodesFrom_NoDup (d : nat) (l : list nat) :
  NoDup l -> NoDup (nodesFrom d l).
Proof.
  destruct (nodesFrom_suffix_of d l) as [pre Hpre]. intros Hnd.
  rewrite Hpre in Hnd. by apply NoDup_app in Hnd as (_ & _ & Hnd).
Qed.

Lemma nodesFrom_erase (c d : nat) (l : list nat) :
  NoDup l -> d <> c -> nodesFrom d (erase c l) = erase c (nodesFrom d l).
Proof.
  induction l as [|x l IH]; intros Hnd Hdc; [done|].
  apply NoDup_cons in Hnd as [Hx Hnd]. simpl.
  destruct (decide (x = c)) as [->|Hxc].
  - destruct (decide (c = d)) as [->|_]; [done|].
    symmetry. apply erase_notin. intros Hin. apply Hx.
    by apply (nodesFrom_elem_of d).
  - simpl. destruct (decide (x = d)) as [->|Hxd].
    + simpl. by destruct (decide (d = c)).
    + by apply IH.
Qed.

(** Unlinking a node takes it, and nothing else, out of the nodes ahead
    of an iterator, once the iterator has been moved off the node. *)
Lemma range_erase (c : nat) (it : option nat) (l : list nat) :
  NoDup l -> validIterator it l -> c ∈ l ->
  range (if decide (Some c = it) then next c l else it) (erase c l)
  = erase c (range it l).
Proof.
  intros Hnd Hv Hin. destruct (decide (Some c = it)) as [Heq|Hne].
  - rewrite <- Heq. cbn [range]. rewrite (nodesFrom_next c l Hnd Hin).
    simpl erase. destruct (decide (c = c)); [|done].
    destruct (next c l) as [d|] eqn:Hn; [|done].
    destruct (next_elem_of c d l Hnd Hn) as [Hd Hdc]. cbn [range].
    rewrite nodesFrom_erase by done. apply erase_notin.
    pose proof (nodesFrom_NoDup c l Hnd) as Hnd'.
    rewrite (nodesFrom_next c l Hnd Hin), Hn in Hnd'. cbn [range] in Hnd'.
    by apply NoDup_cons in Hnd' as [Hnotin _].
  - destruct it as [d|]; [|done]. cbn [range].
    apply nodesFrom_erase; [done|congruence].
Qed.

(** *** Removing a connection *)

(** C7: for a connection this manager manages, [removeConnection] cancels
    its pending timeout, detaches it from the manager, unlinks it from the
    list (one connection fewer, the others as they were) and leaves
    [idleIterator_] valid, advanced to the next node when it pointed at the
    removed one and untouched otherwise, so that the nodes from the
    iterator to the end of the list are those there were, in their order,
    less the removed connection; the callback, when one is installed,
    receives [onConnectionRemoved], followed by [onEmpty] exactly when no
    connection is left.  After ten connections are added and the fifth is
    removed (also when the iterator pointed at it, at the tail of the list
    or with another idle connection behind it), the iterator is valid and
    [getNumConnections] is 9. *)
Theorem removeConnection_managed (this c : nat) (w : World)
    (m : ConnectionManager) :
  managers w !! this = Some m ->
  connectionManager w !! c = Some this ->
  c ∈ conns_ m ->
  NoDup (conns_ m) ->
  validIterator (idleIterator_ m) (conns_ m) ->
  let w' := removeConnection this c w in
  (timeouts w' = delete c (timeouts w) /\ timeouts w' !! c = None)
  /\ connectionManager w' !! c = None
  /\ (exists m',
        managers w' !! this = Some m'
        /\ conns_ m' = erase c (conns_ m)
        /\ (forall x, x ∈ conns_ m' <-> x ∈ conns_ m /\ x <> c)
        /\ S (getNumConnections m') = getNumConnections m
        /\ validIterator (idleIterator_ m') (conns_ m')
        /\ idleIterator_ m'
           = (if decide (idleIterator_ m = Some c)
              then next c (conns_ m) else idleIterator_ m)
        /\ range (idleIterator_ m') (conns_ m')
           = erase c (range (idleIterator_ m) (conns_ m))
        /\ trace w'
           = trace w ++
             (if callback_ m
              then OnConnectionRemoved this ::
                   (if decide (getNumConnections m' = 0)
                    then [OnEmpty this] else [])
              else []))
  /\ (exists m9,
        managers (removeConnection 0 5 (withConnections 10)) !! 0 = Some m9
        /\ validIterator (idleIterator_ m9) (conns_ m9)
        /\ getNumConnections m9 = 9)
  /\ (exists mi m9,
        managers (onDeactivated 0 5 (withConnections 10)) !! 0 = Some mi
        /\ idleIterator_ mi = Some 5
        /\ managers (removeConnection 0 5 (onDeactivated 0 5 (withConnections 10)))
             !! 0 = Some m9
        /\ validIterator (idleIterator_ m9) (conns_ m9)
        /\ getNumConnections m9 = 9)
  /\ (exists mi m9,
        managers (onDeactivated 0 6 (onDeactivated 0 5 (withConnections 10)))
          !! 0 = Some mi
        /\ idleIterator_ mi = Some 5
        /\ range (idleIterator_ mi) (conns_ mi) = [5; 6]
        /\ managers
             (removeConnection 0 5
                (onDeactivated 0 6 (onDeactivated 0 5 (withConnections 10))))
             !! 0 = Some m9
        /\ idleIterator_ m9 = Some 6
        /\ range (idleIterator_ m9) (conns_ m9) = [6]
        /\ getNumConnections m9 = 9).
Proof.
  intros Hm Hc Hin Hnd Hit w'.
  assert (w' = MkWorld
                 (<[this := withList (erase c (conns_ m))
                              (if decide (Some c = idleIterator_ m)
                               then next c (conns_ m) else idleIterator_ m) m]>
                    (managers w))
                 (delete c (connectionManager w)) (delete c (timeouts w))
                 (trace w ++
                  (if callback_ m
                   then OnConnectionRemoved this ::
                        (if decide (length (erase c (conns_ m)) = 0)
                         then [OnEmpty this] else [])
                   else []))) as ->.
  { subst w'. unfold removeConnection. rewrite Hm.
    by destruct (decide (connectionManager w !! c = Some this)). }
  split; [|split; [|split; [|split; [|split]]]].
  - split; [done|]. apply lookup_delete_eq.
  - apply lookup_delete_eq.
  - eexists. split; [apply lookup_insert_eq|].
    split; [done|]. split; [intros x; by apply erase_elem_of|].
    split; [by apply erase_length|].
    split; [|split; [|split; [|done]]]; cbn [idleIterator_ conns_ withList].
    + destruct (decide (Some c = idleIterator_ m)) as [Heq|Hne].
      * by apply next_valid.
      * destruct (idleIterator_ m) as [d|]; [|done].
        apply erase_elem_of; [done|]. split; [done|]. congruence.
    + destruct (decide (Some c = idleIterator_ m)),
        (decide (idleIterator_ m = Some c)); congruence.
    + by apply range_erase.
  - eexists. split; [vm_compute; reflexivity|]. split; [exact I|reflexivity].
  - do 2 eexists. split; [vm_compute; reflexivity|]. split; [reflexivity|].
    split; [vm_compute; reflexivity|]. split; [exact I|reflexivity].
  - do 2 eexists. split; [vm_compute; reflexivity|]. split; [reflexivity|].
    split; [vm_compute; reflexivity|].
    split; [vm_compute; reflexivity|]. split; [reflexivity|].
    split; [vm_compute; reflexivity|reflexivity].
Qed.

(** C10: for a connection whose manager is not this one (or that has no
    manager), [removeConnection] changes nothing: the managers with their
    lists and iterators, the connections' managers, the pending timeouts
    and the calls made to callbacks are what they were. *)
Theorem removeConnection_foreign_noop (this c : nat) (w : World) :
  connectionManager w !! c <> Some this ->
  removeConnection this c w = w.
Proof.
  intros Hne. unfold removeConnection.
  by destruct (decide (connectionManager w !! c = Some this)).
Qed.

(** *** The sweeps of the graceful shutdown *)

Lemma drainLoop_DRAIN1 (isBusy : nat -> bool) (nodes : list nat) :
  forall (c k : nat) (made : list Event),
    k + c < 64 ->
    drainLoop isBusy DRAIN1 nodes c k made
    = MkSweep [] c k (made ++ (NotifyPendingShutdown <$> nodes)).
Proof.
  induction nodes as [|conn rest IH]; intros c k made Hlt; simpl.
  - by rewrite app_nil_r.
  - apply Nat.ltb_lt in Hlt as Hb. rewrite Hb, IH by done.
    by rewrite <- app_assoc.
Qed.

Lemma drainLoop_DRAIN2 (isBusy : nat -> bool) (nodes : list nat) :
  forall (c k : nat) (made : list Event),
    let budget := 64 - (k + c) in
    let s := drainLoop isBusy DRAIN2 nodes c k made in
    remaining s = drop budget nodes
    /\ calls s = made ++ (CloseWhenIdle <$> take budget nodes)
    /\ numKept s + numCleared s = k + c + length (take budget nodes)
    /\ numCleared s
       = c + length (filter (fun x => isBusy x = false) (take budget nodes)).
Proof.
  induction nodes as [|conn rest IH]; intros c k made budget; simpl.
  - rewrite drop_nil, take_nil, app_nil_r. simpl. repeat split; lia.
  - destruct (Nat.ltb_spec (k + c) 64) as [Hlt|Hge].
    + pose proof (IH c (S k) (made ++ [CloseWhenIdle conn])) as IHk.
      pose proof (IH (S c) k (made ++ [CloseWhenIdle conn])) as IHc.
      cbv zeta in IHk, IHc.
      remember (63 - (k + c)) as b eqn:Hb.
      replace (64 - (S k + c)) with b in IHk by lia.
      replace (64 - (k + S c)) with b in IHc by lia.
      replace budget with (S b) by (unfold budget; lia).
      clear budget IH Hb Hlt.
      destruct (isBusy conn) eqn:Hbusy.
      * destruct IHk as (Hr & Hc & Hn & Hcl).
        rewrite Hr, Hc, Hn, Hcl, <- app_assoc.
        cbn [take drop fmap list_fmap length app].
        rewrite filter_cons_False by congruence. repeat split; lia.
      * destruct IHc as (Hr & Hc & Hn & Hcl).
        rewrite Hr, Hc, Hn, Hcl, <- app_assoc.
        cbn [take drop fmap list_fmap length app].
        rewrite filter_cons_True by done. cbn [length]. repeat split; lia.
    + assert (budget = 0) as -> by (unfold budget; lia).
      simpl. rewrite app_nil_r. repeat split; lia.
Qed.

(** In phase DRAIN1 a sweep goes on to the end of the list, whatever its
    length: the loop's counters only move in phase DRAIN2. *)
Lemma sweep_DRAIN1 (isBusy : nat -> bool) (m : ConnectionManager) :
  action_ m = DRAIN1 ->
  sweep isBusy m
  = MkSweep [] 0 0
      (NotifyPendingShutdown <$> range (sweepStart m) (conns_ m)).
Proof.
  intros Ha. unfold sweep. rewrite Ha. by rewrite drainLoop_DRAIN1 by lia.
Qed.

(** In phase DRAIN2 a sweep asks the first 64 connections from its start
    to close when idle, and stops there. *)
Lemma sweep_DRAIN2 (isBusy : nat -> bool) (m : ConnectionManager) :
  action_ m = DRAIN2 ->
  let nodes := range (sweepStart m) (conns_ m) in
  remaining (sweep isBusy m) = drop 64 nodes
  /\ calls (sweep isBusy m) = CloseWhenIdle <$> take 64 nodes
  /\ numKept (sweep isBusy m) + numCleared (sweep isBusy m)
     = length (take 64 nodes)
  /\ numCleared (sweep isBusy m)
     = length (filter (fun x => isBusy x = false) (take 64 nodes)).
Proof.
  intros Ha nodes. unfold sweep. rewrite Ha.
  destruct (drainLoop_DRAIN2 isBusy nodes 0 0 []) as (Hr & Hc & Hn & Hcl).
  fold nodes. simpl in *. done.
Qed.

Lemma drainAllConnections_manager (isBusy : nat -> bool) (this : nat)
    (w : World) (m : ConnectionManager) :
  managers w !! this = Some m ->
  managers (drainAllConnections isBusy this w) !! this
  = Some (match head (remaining (sweep isBusy m)) with
          | Some c => withLoopCallback true (withList (conns_ m) (Some c) m)
          | None => withAction DRAIN2 m
          end)
  /\ trace (drainAllConnections isBusy this w)
     = trace w ++ calls (sweep isBusy m).
Proof.
  intros Hm. unfold drainAllConnections. rewrite Hm. cbn [managers trace].
  by rewrite lookup_insert_eq.
Qed.

Lemma sweep_withGraceTimeout (isBusy : nat -> bool) (t : option Z)
    (m : ConnectionManager) :
  sweep isBusy (withGraceTimeout t m) = sweep isBusy m.
Proof. reflexivity. Qed.

Lemma initiateGracefulShutdown_manager (isBusy : nat -> bool) (this : nat)
    (idleGrace : Z) (w : World) (m : ConnectionManager) :
  managers w !! this = Some m ->
  let m1 := if (0 <? idleGrace)%Z
            then withGraceTimeout (Some idleGrace) m
            else withAction DRAIN2 m in
  managers (initiateGracefulShutdown isBusy this idleGrace w) !! this
  = Some (match head (remaining (sweep isBusy m1)) with
          | Some c => withLoopCallback true (withList (conns_ m1) (Some c) m1)
          | None => withAction DRAIN2 m1
          end)
  /\ trace (initiateGracefulShutdown isBusy this idleGrace w)
     = trace w ++ calls (sweep isBusy m1).
Proof.
  intros Hm m1. unfold initiateGracefulShutdown. rewrite Hm. fold m1.
  apply (drainAllConnections_manager isBusy this (setManager this m1 w) m1).
  unfold setManager. cbn [managers]. apply lookup_insert_eq.
Qed.

(** C1, at an input on which the code departs from it: in phase DRAIN1
    one sweep over a manager with 65 connections notifies all 65 and
    reaches the end of the list. *)
Theorem drain1_sweep_passes_64 (isBusy : nat -> bool) :
  exists m,
    managers (withConnections 65) !! 0 = Some m
    /\ action_ m = DRAIN1
    /\ getNumConnections m = 65
    /\ length (calls (sweep isBusy m)) = 65
    /\ remaining (sweep isBusy m) = []
    /\ trace (initiateGracefulShutdown isBusy 0 1000 (withConnections 65))
       = trace (withConnections 65)
         ++ (NotifyPendingShutdown <$> reverse (seq 1 65)).
Proof.
  pose (m := withList (reverse (seq 1 65)) None (construct 1000 true)).
  assert (managers (withConnections 65) !! 0 = Some m) as Hm
    by (vm_compute; reflexivity).
  assert (range (sweepStart m) (conns_ m) = reverse (seq 1 65)) as Hrange
    by (vm_compute; reflexivity).
  exists m. split; [done|]. split; [reflexivity|].
  split; [vm_compute; reflexivity|].
  rewrite (sweep_DRAIN1 isBusy m eq_refl), Hrange. cbn [calls remaining].
  split; [vm_compute; reflexivity|]. split; [reflexivity|].
  destruct (initiateGracefulShutdown_manager isBusy 0 1000 _ _ Hm) as [_ ->].
  change (0 <? 1000)%Z with true. cbv iota.
  rewrite sweep_withGraceTimeout, (sweep_DRAIN1 isBusy m eq_refl), Hrange.
  reflexivity.
Qed.

(** *** Sweeps in phase DRAIN2 *)

Lemma nodesFrom_suffix (d : nat) (post l : list nat) :
  NoDup l -> (d :: post) `suffix_of` l -> nodesFrom d l = d :: post.
Proof.
  intros Hnd [pre ->]. induction pre as [|x pre IH]; simpl.
  - by destruct (decide (d = d)).
  - simpl in Hnd. apply NoDup_cons in Hnd as [Hx Hnd].
    destruct (decide (x = d)) as [->|_]; [|by apply IH].
    exfalso. apply Hx. apply elem_of_app. right. apply elem_of_cons. by left.
Qed.

Lemma range_head_suffix (R l : list nat) :
  NoDup l -> R `suffix_of` l -> range (head R) l = R.
Proof.
  intros Hnd Hsuf. destruct R as [|d post]; [done|].
  simpl. by apply nodesFrom_suffix.
Qed.

Lemma range_sweepStart_fresh (m : ConnectionManager) :
  idleIterator_ m = None -> range (sweepStart m) (conns_ m) = conns_ m.
Proof.
  intros Hit. unfold sweepStart. rewrite Hit.
  destruct (conns_ m) as [|x l]; [done|]. simpl.
  by destruct (decide (x = x)).
Qed.

(** One sweep in phase DRAIN2 over the nodes [R] it has before it. *)
Lemma drainAllConnections_DRAIN2 (isBusy : nat -> bool) (this : nat)
    (w : World) (m : ConnectionManager) (R : list nat) :
  managers w !! this = Some m ->
  action_ m = DRAIN2 ->
  NoDup (conns_ m) ->
  range (sweepStart m) (conns_ m) = R ->
  R `suffix_of` conns_ m ->
  let w1 := drainAllConnections isBusy this w in
  trace w1 = trace w ++ (CloseWhenIdle <$> take 64 R)
  /\ exists m1,
       managers w1 !! this = Some m1
       /\ action_ m1 = DRAIN2
       /\ conns_ m1 = conns_ m
       /\ (drop 64 R = [] ->
           loopCallbackScheduled m1 = loopCallbackScheduled m)
       /\ (drop 64 R <> [] ->
           loopCallbackScheduled m1 = true
           /\ range (sweepStart m1) (conns_ m1) = drop 64 R).
Proof.
  intros Hm Ha Hnd HR Hsuf w1. subst w1.
  destruct (drainAllConnections_manager isBusy this w m Hm) as [Hm1 Ht].
  destruct (sweep_DRAIN2 isBusy m Ha) as (Hrem & Hcalls & _).
  rewrite HR in Hrem, Hcalls. rewrite Ht, Hcalls. split; [done|].
  eexists. split; [exact Hm1|]. rewrite Hrem.
  destruct (drop 64 R) as [|d post] eqn:Hdrop; cbn [head].
  - repeat split; try done.
  - split; [done|]. split; [done|]. split; [done|]. intros _. split; [done|].
    cbn [sweepStart idleIterator_ conns_ withLoopCallback withList range].
    apply nodesFrom_suffix; [done|]. rewrite <- Hdrop.
    etrans; [apply suffix_drop|done].
Qed.

Lemma runLoopCallback_idle (isBusy : nat -> bool) (this : nat) (w : World)
    (m : ConnectionManager) :
  managers w !! this = Some m -> loopCallbackScheduled m = false ->
  forall k, loopIterations isBusy this k w = w.
Proof.
  intros Hm Hs k. induction k as [|k IH]; [done|]. simpl.
  unfold runLoopCallback. rewrite Hm, Hs. exact IH.
Qed.

(** The sweeps of phase DRAIN2, one per iteration of the event loop, ask
    every connection ahead to close; [k] further iterations are enough for
    up to [64 * (k + 1)] connections. *)
Lemma drain2_sweeps (isBusy : nat -> bool) (this : nat) (k : nat) :
  forall (w : World) (m : ConnectionManager) (R : list nat),
    managers w !! this = Some m ->
    action_ m = DRAIN2 ->
    loopCallbackScheduled m = false ->
    NoDup (conns_ m) ->
    range (sweepStart m) (conns_ m) = R ->
    R `suffix_of` conns_ m ->
    length R <= 64 * S k ->
    let w' := loopIterations isBusy this k (drainAllConnections isBusy this w) in
    trace w' = trace w ++ (CloseWhenIdle <$> R)
    /\ exists m',
         managers w' !! this = Some m'
         /\ loopCallbackScheduled m' = false
         /\ action_ m' = DRAIN2.
Proof.
  induction k as [|k IH]; intros w m R Hm Ha Hs Hnd HR Hsuf Hlen w'; subst w';
    destruct (drainAllConnections_DRAIN2 isBusy this w m R Hm Ha Hnd HR Hsuf)
      as (Ht & m1 & Hm1 & Ha1 & Hc1 & Hend & Hmore).
  - cbn [loopIterations]. rewrite Ht, take_ge by lia. split; [done|].
    exists m1. rewrite Hend by (apply drop_ge; lia). done.
  - destruct (drop 64 R) as [|d post] eqn:Hdrop.
    + rewrite (runLoopCallback_idle isBusy this _ m1 Hm1)
        by (rewrite Hend by done; done).
      rewrite Ht. assert (take 64 R = R) as ->.
      { rewrite <- (take_drop 64 R) at 2. by rewrite Hdrop, app_nil_r. }
      split; [done|]. exists m1. rewrite Hend by done. done.
    + destruct (Hmore ltac:(discriminate)) as [Hs1 Hr1].
      cbn [loopIterations].
      set (w1 := setManager this (withLoopCallback false m1)
                   (drainAllConnections isBusy this w)).
      assert (runLoopCallback isBusy this (drainAllConnections isBusy this w)
              = drainAllConnections isBusy this w1) as ->.
      { unfold runLoopCallback. by rewrite Hm1, Hs1. }
      destruct (IH w1 (withLoopCallback false m1) (d :: post)) as (Ht' & Hm').
      * unfold w1, setManager. cbn [managers]. apply lookup_insert_eq.
      * done.
      * done.
      * cbn [conns_ withLoopCallback]. by rewrite Hc1.
      * exact Hr1.
      * cbn [conns_ withLoopCallback]. rewrite Hc1, <- Hdrop.
        etrans; [apply suffix_drop|done].
      * rewrite <- Hdrop, length_drop. lia.
      * split; [|exact Hm']. rewrite Ht'. unfold w1, setManager. cbn [trace].
        rewrite Ht, <- app_assoc, <- fmap_app, <- Hdrop, take_drop. done.
Qed.

(** X1: in phase DRAIN2 a sweep processes at most 64 connections. *)
Theorem drain2_sweep_bounded (isBusy : nat -> bool) (m : ConnectionManager) :
  action_ m = DRAIN2 ->
  length (calls (sweep isBusy m)) <= 64
  /\ numKept (sweep isBusy m) + numCleared (sweep isBusy m) <= 64.
Proof.
  intros Ha. destruct (sweep_DRAIN2 isBusy m Ha) as (_ & Hc & Hn & _).
  rewrite Hc, Hn, length_fmap, length_take. lia.
Qed.

(** X2: with no grace period [initiateGracefulShutdown] enters DRAIN2 at once
    and its sweep, followed by [ceil(n / 64) - 1] iterations of the event
    loop, has asked each of the [n] connections to close, after which no
    sweep is scheduled any more. *)
Theorem zero_grace_drains_in_ceil_sweeps (isBusy : nat -> bool) (this : nat)
    (idleGrace : Z) (w : World) (m : ConnectionManager) :
  managers w !! this = Some m ->
  (idleGrace <= 0)%Z ->
  NoDup (conns_ m) ->
  idleIterator_ m = None ->
  loopCallbackScheduled m = false ->
  let n := getNumConnections m in
  let w' := loopIterations isBusy this ((n + 63) / 64 - 1)
              (initiateGracefulShutdown isBusy this idleGrace w) in
  trace w' = trace w ++ (CloseWhenIdle <$> conns_ m)
  /\ exists m',
       managers w' !! this = Some m'
       /\ loopCallbackScheduled m' = false
       /\ action_ m' = DRAIN2.
Proof.
  intros Hm Hg Hnd Hit Hs n w'. subst w'.
  unfold initiateGracefulShutdown. rewrite Hm.
  destruct (Z.ltb_spec 0 idleGrace); [lia|].
  apply (drain2_sweeps isBusy this ((n + 63) / 64 - 1)
           (setManager this (withAction DRAIN2 m) w) (withAction DRAIN2 m)
           (conns_ m)); try done.
  - unfold setManager. cbn [managers]. apply lookup_insert_eq.
  - by apply (range_sweepStart_fresh (withAction DRAIN2 m)).
  - fold (getNumConnections m). fold n.
    pose proof (Nat.div_mod_eq (n + 63) 64) as Hdiv.
    pose proof (Nat.mod_upper_bound (n + 63) 64 ltac:(lia)) as Hmod. lia.
Qed.

(** *** Which calls change the phase *)

Lemma scheduleTimeout_managers (c : nat) (t : Z) (w : World) :
  managers (scheduleTimeout c t w) = managers w.
Proof. unfold scheduleTimeout. by destruct (0 <? t)%Z. Qed.

Lemma removeConnection_managers_other (old this c : nat) (w : World) :
  old <> this ->
  managers (removeConnection old c w) !! this = managers w !! this.
Proof.
  intros Hne. unfold removeConnection.
  destruct (decide (connectionManager w !! c = Some old)); [|done].
  destruct (managers w !! old); [|done]. cbn [managers].
  by rewrite lookup_insert_ne.
Qed.

Lemma removeConnection_action (this c : nat) (w : World)
    (m m' : ConnectionManager) :
  managers w !! this = Some m ->
  managers (removeConnection this c w) !! this = Some m' ->
  action_ m' = action_ m.
Proof.
  intros Hm. unfold removeConnection.
  destruct (decide (connectionManager w !! c = Some this)).
  - rewrite Hm. cbn [managers]. rewrite lookup_insert_eq. by intros [= <-].
  - rewrite Hm. by intros [= <-].
Qed.

Lemma addConnection_action (this c : nat) (t : bool) (w : World)
    (m m' : ConnectionManager) :
  managers w !! this = Some m ->
  managers (addConnection this c t w) !! this = Some m' ->
  action_ m' = action_ m.
Proof.
  intros Hm. unfold addConnection.
  set (w1 := if decide (connectionManager w !! c = Some this) then w else _).
  assert (exists m1, managers w1 !! this = Some m1 /\ action_ m1 = action_ m)
    as (m1 & Hm1 & Ha1).
  { subst w1. destruct (decide (connectionManager w !! c = Some this)) as [|Hne].
    { by exists m. }
    set (w' := match connectionManager w !! c with
               | Some old => removeConnection old c w
               | None => w
               end).
    assert (managers w' !! this = Some m) as Hw'.
    { subst w'. destruct (connectionManager w !! c) as [old|] eqn:Hold; [|done].
      rewrite removeConnection_managers_other; [done|congruence]. }
    rewrite Hw'. cbn [managers]. rewrite lookup_insert_eq.
    eexists. split; [reflexivity|reflexivity]. }
  destruct t.
  - rewrite Hm1, scheduleTimeout_managers, Hm1. intros [= <-]. done.
  - rewrite Hm1. intros [= <-]. done.
Qed.

Lemma dropAllConnections_action (this : nat) (w : World)
    (m m' : ConnectionManager) :
  managers w !! this = Some m ->
  managers (dropAllConnections this w) !! this = Some m' ->
  action_ m' = action_ m.
Proof.
  intros Hm. unfold dropAllConnections. rewrite Hm.
  destruct (dropLoop _ _ _ _ _) as [[cm ts] made]. cbn [managers].
  rewrite lookup_insert_eq. by intros [= <-].
Qed.

Lemma onActivated_action (this c : nat) (w : World) (m m' : ConnectionManager) :
  managers w !! this = Some m ->
  managers (onActivated this c w) !! this = Some m' ->
  action_ m' = action_ m.
Proof.
  intros Hm. unfold onActivated, setManager. rewrite Hm. cbn [managers].
  rewrite lookup_insert_eq. by intros [= <-].
Qed.

Lemma onDeactivated_action (this c : nat) (w : World)
    (m m' : ConnectionManager) :
  managers w !! this = Some m ->
  managers (onDeactivated this c w) !! this = Some m' ->
  action_ m' = action_ m.
Proof.
  intros Hm. unfold onDeactivated, setManager. rewrite Hm. cbn [managers].
  rewrite lookup_insert_eq. by intros [= <-].
Qed.

Lemma dropIdleConnections_action (getIdleTime : nat -> Z) (this n : nat)
    (w : World) (m m' : ConnectionManager) :
  managers w !! this = Some m ->
  managers (dropIdleConnections getIdleTime this n w).2 !! this = Some m' ->
  action_ m' = action_ m.
Proof.
  intros Hm. unfold dropIdleConnections. rewrite Hm.
  destruct (timeout_ m <=? idleConnEarlyDropThreshold_ m)%Z.
  - cbn [snd]. rewrite Hm. by intros [= <-].
  - destruct (dropIdleLoop _ _ _ _ _ _ _) as [[count it] made].
    cbn [snd managers]. rewrite lookup_insert_eq. by intros [= <-].
Qed.

(** What a sweep leaves behind, by whether it reached the end of the
    list. *)
Lemma drainAllConnections_outcome (isBusy : nat -> bool) (this : nat)
    (w : World) (m m' : ConnectionManager) :
  managers w !! this = Some m ->
  managers (drainAllConnections isBusy this w) !! this = Some m' ->
  (remaining (sweep isBusy m) <> [] ->
     loopCallbackScheduled m' = true
     /\ action_ m' = action_ m
     /\ idleIterator_ m' = head (remaining (sweep isBusy m)))
  /\ (remaining (sweep isBusy m) = [] ->
      loopCallbackScheduled m' = loopCallbackScheduled m
      /\ action_ m' = DRAIN2
      /\ idleIterator_ m' = idleIterator_ m).
Proof.
  intros Hm Hm'.
  destruct (drainAllConnections_manager isBusy this w m Hm) as [Hd _].
  rewrite Hd in Hm'. injection Hm' as <-.
  destruct (remaining (sweep isBusy m)) as [|c rest]; cbn [head]; split;
    intros H; done.
Qed.

(** C6, as amended: the phase goes from DRAIN1 to DRAIN2 only in
    [initiateGracefulShutdown] called with no grace period, or at the end
    of a sweep that reached the end of the connection list; no call takes
    it back to DRAIN1.  A sweep puts itself back on the event loop exactly
    when it stopped before the end of the list, resuming from there; a
    sweep that reached the end does not, and leaves the phase DRAIN2.
    [initiateGracefulShutdown] with a grace period arms the grace timer
    and sweeps in the phase it found. *)
Theorem phase_flips_at_initiation_or_end_of_sweep (isBusy : nat -> bool)
    (getIdleTime : nat -> Z) (this : nat) (c : Call) (w : World)
    (m m' : ConnectionManager) :
  managers w !! this = Some m ->
  managers (exec isBusy getIdleTime this c w) !! this = Some m' ->
  (action_ m = DRAIN1 -> action_ m' = DRAIN2 ->
     (exists g, c = CallInitiateGracefulShutdown g /\ (g <= 0)%Z)
     \/ ((c = CallDrainAllConnections
          \/ exists g, c = CallInitiateGracefulShutdown g /\ (0 < g)%Z)
         /\ remaining (sweep isBusy m) = []))
  /\ (action_ m = DRAIN2 -> action_ m' = DRAIN2)
  /\ (c = CallDrainAllConnections ->
      (remaining (sweep isBusy m) <> [] ->
         loopCallbackScheduled m' = true
         /\ action_ m' = action_ m
         /\ idleIterator_ m' = head (remaining (sweep isBusy m)))
      /\ (remaining (sweep isBusy m) = [] ->
          loopCallbackScheduled m' = loopCallbackScheduled m
          /\ action_ m' = DRAIN2))
  /\ (forall g, c = CallInitiateGracefulShutdown g -> (0 < g)%Z ->
        graceTimeout m' = Some g
        /\ (remaining (sweep isBusy m) <> [] -> action_ m' = action_ m)
        /\ (remaining (sweep isBusy m) = [] -> action_ m' = DRAIN2)).
Proof.
  intros Hm Hm'.
  destruct c as [conn t|conn|g| | |conn|conn|n]; cbn [exec] in Hm'.
  - pose proof (addConnection_action _ _ _ _ _ _ Hm Hm') as Ha.
    repeat split; try congruence; try discriminate.
  - pose proof (removeConnection_action _ _ _ _ _ Hm Hm') as Ha.
    repeat split; try congruence; try discriminate.
  - destruct (initiateGracefulShutdown_manager isBusy this g w m Hm) as [Hd _].
    rewrite Hd in Hm'. injection Hm' as <-. clear Hd.
    destruct (Z.ltb_spec 0 g) as [Hg|Hg].
    + rewrite sweep_withGraceTimeout.
      destruct (remaining (sweep isBusy m)) as [|x rest] eqn:Hrem; cbn [head].
      * split; [intros _ _; right; split; [right; by exists g|done]|].
        split; [done|]. split; [discriminate|].
        intros g' [= <-] _. repeat split; done.
      * split; [cbn; congruence|]. split; [done|]. split; [discriminate|].
        intros g' [= <-] _. repeat split; done.
    + split; [intros _ _; left; by exists g|].
      split; [by destruct (head _)|]. split; [discriminate|].
      intros g' [= <-] Hg'. lia.
  - destruct (drainAllConnections_outcome isBusy this w m m' Hm Hm')
      as [Hmore Hend].
    destruct (remaining (sweep isBusy m)) as [|x rest] eqn:Hrem.
    + destruct (Hend eq_refl) as (Hs & Ha & _).
      split; [intros _ _; right; split; [by left|done]|].
      split; [done|]. split; [|discriminate].
      intros _. split; [done|]. intros _. done.
    + destruct (Hmore ltac:(discriminate)) as (Hs & Ha & Hi).
      split; [congruence|]. split; [congruence|]. split; [|discriminate].
      intros _. split; [|discriminate]. intros _. done.
  - pose proof (dropAllConnections_action _ _ _ _ Hm Hm') as Ha.
    repeat split; try congruence; try discriminate.
  - pose proof (onActivated_action _ _ _ _ _ Hm Hm') as Ha.
    repeat split; try congruence; try discriminate.
  - pose proof (onDeactivated_action _ _ _ _ _ Hm Hm') as Ha.
    repeat split; try congruence; try discriminate.
  - pose proof (dropIdleConnections_action _ _ _ _ _ _ Hm Hm') as Ha.
    repeat split; try congruence; try discriminate.
Qed.

(** C6, as the specification states it, fails: with a grace period of one
    second configured, and its timer still pending, the phase is DRAIN2 as
    soon as [initiateGracefulShutdown] returns. *)
Lemma phase_flips_while_grace_timer_pending :
  ~ (forall (isBusy : nat -> bool) (this : nat) (idleGrace : Z) (w : World)
            (m m' : ConnectionManager),
       managers w !! this = Some m ->
       managers (initiateGracefulShutdown isBusy this idleGrace w) !! this
       = Some m' ->
       action_ m = DRAIN1 -> action_ m' = DRAIN2 ->
       graceTimeout m' = Some idleGrace -> (idleGrace <= 0)%Z).
Proof.
  intros Hall.
  pose (m := withList [1] None (construct 1000 true)).
  pose (m' := withAction DRAIN2 (withGraceTimeout (Some 1000%Z) m)).
  assert (1000 <= 0)%Z; [|lia].
  apply (Hall (fun _ => false) 0 1000%Z (withConnections 1) m m').
  - vm_compute. reflexivity.
  - vm_compute. reflexivity.
  - reflexivity.
  - reflexivity.
  - reflexivity.
Qed.

(** *** Early dropping of idle connections *)

Section DropIdle.
Variable getIdleTime : nat -> Z.
Variable threshold : Z.
Variable l : list nat.
Hypothesis l_NoDup : NoDup l.

Lemma dropIdleLoop_walk (togo : nat) :
  forall (it : option nat) (count : nat) (made : list Event),
    validIterator it l ->
    let dropped :=
      take togo (takeWhile (overThreshold getIdleTime threshold) (range it l)) in
    exists it',
      dropIdleLoop getIdleTime threshold l togo it count made
      = (count + length dropped, it', made ++ (TimeoutExpired <$> dropped))
      /\ validIterator it' l
      /\ range it' l = drop (length dropped) (range it l).
Proof.
  induction togo as [|togo IH]; intros it count made Hit; simpl.
  - exists it. rewrite Nat.add_0_r, app_nil_r. done.
  - destruct it as [c|]; simpl.
    2:{ exists None. rewrite Nat.add_0_r, app_nil_r. done. }
    simpl in Hit. rewrite (nodesFrom_next c l l_NoDup Hit). simpl.
    assert (overThreshold getIdleTime threshold c
            = negb ((getIdleTime c =? 0)%Z || (getIdleTime c <=? threshold)%Z))
      as -> by reflexivity.
    destruct ((getIdleTime c =? 0)%Z || (getIdleTime c <=? threshold)%Z); simpl.
    + exists (Some c). rewrite Nat.add_0_r, app_nil_r. repeat split; [done|].
      simpl. by apply nodesFrom_next.
    + destruct (IH (next c l) (S count) (made ++ [TimeoutExpired c])
                  (next_valid_same c l l_NoDup)) as (it' & Heq & Hv & Hr).
      exists it'. rewrite Heq. repeat split; [|done|done].
      rewrite <- app_assoc. simpl. do 2 f_equal. lia.
Qed.

End DropIdle.

Lemma overThreshold_halved (getIdleTime : nat -> Z) (timeout : Z) (c : nat) :
  (timeout ÷ 2 < timeout)%Z ->
  overThreshold getIdleTime (timeout ÷ 2) c = (timeout ÷ 2 <? getIdleTime c)%Z.
Proof.
  intros Hlt. unfold overThreshold.
  assert (0 <= timeout ÷ 2)%Z as Hpos.
  { destruct (Z.lt_ge_cases timeout 0) as [Hneg|Hnn].
    - pose proof (Z.quot_opp_l timeout 2 ltac:(lia)) as Ho.
      assert (0 <= - timeout ÷ 2 <= - timeout)%Z as Hq.
      { split; [apply Z.quot_pos; lia|]. apply Z.quot_le_upper_bound; lia. }
      lia.
    - apply Z.quot_pos; lia. }
  destruct (Z.eqb_spec (getIdleTime c) 0), (Z.leb_spec (getIdleTime c) (timeout ÷ 2)),
    (Z.ltb_spec (timeout ÷ 2) (getIdleTime c)); simpl; try done; lia.
Qed.

(** C3: [dropIdleConnections n] walks forward from [idleIterator_]: it
    drops (calls [timeoutExpired] on) the connections it meets, one after
    the other, and stops at the end of the list, at the first connection
    whose idle time does not exceed the early-drop threshold [timeout / 2],
    or after [n] drops; it returns the number dropped and leaves
    [idleIterator_] where it stopped; no connection whose idle time is at
    most [timeout / 2] is dropped; and whenever the threshold is at least
    the timeout it returns 0 and changes nothing, whatever [n] is. *)
Theorem dropIdleConnections_walk (getIdleTime : nat -> Z) (this num : nat)
    (w : World) (m : ConnectionManager) :
  managers w !! this = Some m ->
  NoDup (conns_ m) ->
  validIterator (idleIterator_ m) (conns_ m) ->
  let threshold := idleConnEarlyDropThreshold_ m in
  let result := dropIdleConnections getIdleTime this num w in
  ((timeout_ m <= threshold)%Z -> result = (0, w))
  /\ (threshold = (timeout_ m ÷ 2)%Z -> (threshold < timeout_ m)%Z ->
      let walk := range (idleIterator_ m) (conns_ m) in
      let dropped :=
        take num (takeWhile (fun c => (threshold <? getIdleTime c)%Z) walk) in
      result.1 = length dropped
      /\ trace result.2 = trace w ++ (TimeoutExpired <$> dropped)
      /\ (forall c, c ∈ dropped -> (timeout_ m ÷ 2 < getIdleTime c)%Z)
      /\ exists m',
           managers result.2 !! this = Some m'
           /\ conns_ m' = conns_ m
           /\ validIterator (idleIterator_ m') (conns_ m')
           /\ range (idleIterator_ m') (conns_ m') = drop (length dropped) walk).
Proof.
  intros Hm Hnd Hit threshold result. subst result.
  unfold dropIdleConnections. rewrite Hm. fold threshold. split.
  - intros Hge. by destruct (Z.leb_spec (timeout_ m) threshold); [|lia].
  - intros Hthr Hlt.
    set (walk := range (idleIterator_ m) (conns_ m)).
    set (dropped :=
           take num (takeWhile (fun c => (threshold <? getIdleTime c)%Z) walk)).
    destruct (Z.leb_spec (timeout_ m) threshold); [lia|].
    destruct (dropIdleLoop_walk getIdleTime threshold (conns_ m) Hnd num
                (idleIterator_ m) 0 [] Hit) as (it' & Heq & Hv & Hr).
    rewrite Heq. clear Heq. simpl in *.
    assert (takeWhile (overThreshold getIdleTime threshold)
              (range (idleIterator_ m) (conns_ m))
            = takeWhile (fun c => (threshold <? getIdleTime c)%Z) walk) as Htw.
    { apply takeWhile_ext. intros c. rewrite Hthr.
      apply overThreshold_halved. lia. }
    rewrite Htw in Hr |- *. fold dropped in Hr |- *.
    repeat split; try done.
    + intros c Hc. rewrite <- Hthr.
      assert (Forall (fun c => (threshold <? getIdleTime c)%Z = true) dropped)
        as HF.
      { unfold dropped. apply Forall_take, takeWhile_Forall. }
      rewrite Forall_forall in HF. apply Z.ltb_lt. by apply HF.
    + exists (withList (conns_ m) it' m). rewrite lookup_insert_eq. done.
Qed.

(** *** The bookkeeping is kept by every call *)

Lemma wellFormed_update (w : World) (this : nat) (m m' : ConnectionManager)
    (ts : gmap nat Z) (tr : list Event) :
  wellFormed w ->
  managers w !! this = Some m ->
  NoDup (conns_ m') ->
  validIterator (idleIterator_ m') (conns_ m') ->
  (forall c, c ∈ conns_ m' <-> c ∈ conns_ m) ->
  wellFormed (MkWorld (<[this := m']> (managers w)) (connectionManager w) ts tr).
Proof.
  intros [Hmgr Hconn] Hthis Hnd Hv Hmem.
  split; cbn [managers connectionManager].
  - intros g mg Hg. destruct (decide (g = this)) as [->|Hne].
    + rewrite lookup_insert_eq in Hg. injection Hg as <-.
      split; [done|]. split; [done|]. intros c Hc. apply Hmem in Hc.
      by apply (Hmgr this m Hthis).
    + rewrite lookup_insert_ne in Hg by done. by apply Hmgr.
  - intros c g Hcg. destruct (Hconn c g Hcg) as (mg & Hmg & Hin).
    destruct (decide (g = this)) as [->|Hne].
    + exists m'. rewrite lookup_insert_eq. split; [done|].
      rewrite Hthis in Hmg. injection Hmg as <-. by apply Hmem.
    + exists mg. by rewrite lookup_insert_ne.
Qed.

Lemma wellFormed_same_links (w : World) (ts : gmap nat Z) (tr : list Event) :
  wellFormed w ->
  wellFormed (MkWorld (managers w) (connectionManager w) ts tr).
Proof. intros Hwf. exact Hwf. Qed.

Lemma drainLoop_remaining_suffix (isBusy : nat -> bool) (a : ShutdownAction)
    (nodes : list nat) :
  forall c k made,
    remaining (drainLoop isBusy a nodes c k made) `suffix_of` nodes.
Proof.
  induction nodes as [|x rest IH]; intros c k made; simpl; [done|].
  destruct (k + c <? 64); [|done].
  destruct a; [|destruct (isBusy x)]; by apply suffix_cons_r.
Qed.

Lemma sweep_stops_at_linked_node (isBusy : nat -> bool)
    (m : ConnectionManager) (c : nat) :
  head (remaining (sweep isBusy m)) = Some c -> c ∈ conns_ m.
Proof.
  intros Hhead.
  assert (remaining (sweep isBusy m) `suffix_of` conns_ m) as [pre Hpre].
  { etrans; [apply drainLoop_remaining_suffix|].
    unfold range. destruct (sweepStart m); [apply nodesFrom_suffix_of|].
    apply suffix_nil. }
  destruct (remaining (sweep isBusy m)) as [|d post]; [done|].
  injection Hhead as ->. rewrite Hpre. apply elem_of_app. right.
  apply elem_of_cons. by left.
Qed.

Lemma wellFormed_drainAllConnections (isBusy : nat -> bool) (this : nat)
    (w : World) :
  wellFormed w -> wellFormed (drainAllConnections isBusy this w).
Proof.
  intros Hwf. unfold drainAllConnections.
  destruct (managers w !! this) as [m|] eqn:Hm; [|done].
  destruct (proj1 Hwf this m Hm) as (Hnd & Hv & _).
  apply (wellFormed_update w this m); try done.
  - by destruct (head (remaining (sweep isBusy m))).
  - destruct (head (remaining (sweep isBusy m))) as [c|] eqn:Hh; [|done].
    simpl. by apply (sweep_stops_at_linked_node isBusy).
  - by destruct (head (remaining (sweep isBusy m))).
Qed.

Lemma wellFormed_initiateGracefulShutdown (isBusy : nat -> bool) (this : nat)
    (g : Z) (w : World) :
  wellFormed w -> wellFormed (initiateGracefulShutdown isBusy this g w).
Proof.
  intros Hwf. unfold initiateGracefulShutdown.
  destruct (managers w !! this) as [m|] eqn:Hm; [|done].
  destruct (proj1 Hwf this m Hm) as (Hnd & Hv & _).
  apply wellFormed_drainAllConnections. unfold setManager.
  apply (wellFormed_update w this m); try done; by destruct (0 <? g)%Z.
Qed.

Lemma wellFormed_dropIdleConnections (getIdleTime : nat -> Z) (this n : nat)
    (w : World) :
  wellFormed w -> wellFormed (dropIdleConnections getIdleTime this n w).2.
Proof.
  intros Hwf. unfold dropIdleConnections.
  destruct (managers w !! this) as [m|] eqn:Hm; [|done].
  destruct (timeout_ m <=? idleConnEarlyDropThreshold_ m)%Z; [done|].
  destruct (proj1 Hwf this m Hm) as (Hnd & Hv & _).
  destruct (dropIdleLoop_walk getIdleTime (idleConnEarlyDropThreshold_ m)
              (conns_ m) Hnd n (idleIterator_ m) 0 [] Hv)
    as (it' & -> & Hv' & _).
  cbn [snd]. by apply (wellFormed_update w this m).
Qed.

Lemma wellFormed_onActivated (this conn : nat) (w : World) :
  wellFormed w -> connectionManager w !! conn = Some this ->
  wellFormed (onActivated this conn w).
Proof.
  intros Hwf Hconn. unfold onActivated.
  destruct (proj2 Hwf conn this Hconn) as (m & Hm & Hin). rewrite Hm.
  destruct (proj1 Hwf this m Hm) as (Hnd & Hv & _).
  unfold setManager. apply (wellFormed_update w this m); try done;
    cbn [conns_ idleIterator_ withList].
  - apply NoDup_cons. split; [|by apply erase_NoDup].
    rewrite erase_elem_of by done. tauto.
  - destruct (decide (Some conn = idleIterator_ m)) as [Heq|Hne].
    + pose proof (next_valid conn (conns_ m) Hnd) as Hn.
      destruct (next conn (conns_ m)); [|done]. simpl in *.
      apply elem_of_cons. by right.
    + destruct (idleIterator_ m) as [d|]; [|done]. simpl in *.
      apply elem_of_cons. right. apply erase_elem_of; [done|].
      split; [done|congruence].
  - intros c. rewrite elem_of_cons, erase_elem_of by done.
    destruct (decide (c = conn)) as [->|]; tauto.
Qed.

Lemma wellFormed_onDeactivated (this conn : nat) (w : World) :
  wellFormed w -> connectionManager w !! conn = Some this ->
  wellFormed (onDeactivated this conn w).
Proof.
  intros Hwf Hconn. unfold onDeactivated.
  destruct (proj2 Hwf conn this Hconn) as (m & Hm & Hin). rewrite Hm.
  destruct (proj1 Hwf this m Hm) as (Hnd & Hv & _).
  assert (forall c, c ∈ erase conn (conns_ m) ++ [conn] <-> c ∈ conns_ m)
    as Hmem.
  { intros c. rewrite elem_of_app, erase_elem_of, list_elem_of_singleton by done.
    destruct (decide (c = conn)) as [->|]; tauto. }
  unfold setManager. apply (wellFormed_update w this m); try done;
    cbn [conns_ idleIterator_ withList].
  - apply NoDup_app. split; [by apply erase_NoDup|]. split.
    + intros c Hc Hc'. apply list_elem_of_singleton in Hc' as ->.
      apply erase_elem_of in Hc; [|done]. tauto.
    + apply NoDup_singleton.
  - destruct (idleIterator_ m) as [d|]; simpl in *.
    + by apply Hmem.
    + rewrite last_snoc. simpl. apply Hmem. done.
Qed.

Lemma wellFormed_removeConnection (g c : nat) (w : World) :
  wellFormed w -> wellFormed (removeConnection g c w).
Proof.
  intros Hwf. unfold removeConnection.
  destruct (decide (connectionManager w !! c = Some g)) as [Hc|]; [|done].
  destruct (proj2 Hwf c g Hc) as (m & Hm & Hin). rewrite Hm.
  destruct Hwf as [Hmgr Hconn].
  destruct (Hmgr g m Hm) as (Hnd & Hv & Hlinks).
  split; cbn [managers connectionManager].
  - intros h mh Hh. destruct (decide (h = g)) as [->|Hne].
    + rewrite lookup_insert_eq in Hh. injection Hh as <-.
      cbn [conns_ idleIterator_ withList]. split; [by apply erase_NoDup|]. split.
      * destruct (decide (Some c = idleIterator_ m)) as [Heq|Hneq].
        -- by apply next_valid.
        -- destruct (idleIterator_ m) as [d|]; [|done]. simpl in *.
           apply erase_elem_of; [done|]. split; [done|congruence].
      * intros x Hx. apply erase_elem_of in Hx as [Hx Hxc]; [|done].
        rewrite lookup_delete_ne by done. by apply Hlinks.
    + rewrite lookup_insert_ne in Hh by done.
      destruct (Hmgr h mh Hh) as (Hnd' & Hv' & Hlinks').
      split; [done|]. split; [done|]. intros x Hx.
      specialize (Hlinks' x Hx).
      rewrite lookup_delete_ne; [done|]. intros ->. congruence.
  - intros x h Hx. destruct (decide (x = c)) as [->|Hxc].
    { by rewrite lookup_delete_eq in Hx. }
    rewrite lookup_delete_ne in Hx by done.
    destruct (Hconn x h Hx) as (mh & Hmh & Hxin).
    destruct (decide (h = g)) as [->|Hne].
    + eexists. rewrite lookup_insert_eq. split; [done|].
      cbn [conns_ withList]. rewrite Hm in Hmh. injection Hmh as <-.
      by apply erase_elem_of.
    + exists mh. by rewrite lookup_insert_ne.
Qed.

Lemma removeConnection_detaches (g c : nat) (w : World) :
  wellFormed w -> connectionManager w !! c = Some g ->
  connectionManager (removeConnection g c w) !! c = None.
Proof.
  intros Hwf Hc. unfold removeConnection.
  destruct (decide (connectionManager w !! c = Some g)); [|done].
  destruct (proj2 Hwf c g Hc) as (m & -> & _). cbn [connectionManager].
  apply lookup_delete_eq.
Qed.

Lemma wellFormed_scheduleTimeout (c : nat) (t : Z) (w : World) :
  wellFormed w -> wellFormed (scheduleTimeout c t w).
Proof. intros Hwf. unfold scheduleTimeout. by destruct (0 <? t)%Z. Qed.

(** Linking an unmanaged connection at the busy end. *)
Lemma wellFormed_link (this c : nat) (w : World) (m : ConnectionManager)
    (ts : gmap nat Z) (tr : list Event) :
  wellFormed w ->
  managers w !! this = Some m ->
  connectionManager w !! c = None ->
  wellFormed
    (MkWorld (<[this := withList (c :: conns_ m) (idleIterator_ m) m]> (managers w))
       (<[c := this]> (connectionManager w)) ts tr).
Proof.
  intros [Hmgr Hconn] Hm Hc.
  destruct (Hmgr this m Hm) as (Hnd & Hv & Hlinks).
  assert (c ∉ conns_ m) as Hnotin.
  { intros Hin. specialize (Hlinks c Hin). congruence. }
  split; cbn [managers connectionManager].
  - intros h mh Hh. destruct (decide (h = this)) as [->|Hne].
    + rewrite lookup_insert_eq in Hh. injection Hh as <-.
      cbn [conns_ idleIterator_ withList].
      split; [by apply NoDup_cons|]. split.
      * destruct (idleIterator_ m); [|done]. simpl in *.
        apply elem_of_cons. by right.
      * intros x Hx. apply elem_of_cons in Hx as [->|Hx].
        -- apply lookup_insert_eq.
        -- rewrite lookup_insert_ne by (intros ->; done). by apply Hlinks.
    + rewrite lookup_insert_ne in Hh by done.
      destruct (Hmgr h mh Hh) as (Hnd' & Hv' & Hlinks').
      split; [done|]. split; [done|]. intros x Hx.
      specialize (Hlinks' x Hx).
      rewrite lookup_insert_ne; [done|]. intros ->. congruence.
  - intros x h Hx. destruct (decide (x = c)) as [->|Hxc].
    + rewrite lookup_insert_eq in Hx. injection Hx as <-.
      eexists. rewrite lookup_insert_eq. split; [done|].
      apply elem_of_cons. by left.
    + rewrite lookup_insert_ne in Hx by done.
      destruct (Hconn x h Hx) as (mh & Hmh & Hxin).
      destruct (decide (h = this)) as [->|Hne].
      * eexists. rewrite lookup_insert_eq. split; [done|].
        cbn [conns_ withList]. rewrite Hm in Hmh. injection Hmh as <-.
        apply elem_of_cons. by right.
      * exists mh. by rewrite lookup_insert_ne.
Qed.

Lemma wellFormed_addConnection (this c : nat) (t : bool) (w : World) :
  wellFormed w -> wellFormed (addConnection this c t w).
Proof.
  intros Hwf. unfold addConnection.
  set (w1 := if decide (connectionManager w !! c = Some this) then w else _).
  assert (wellFormed w1) as Hwf1.
  { subst w1. destruct (decide (connectionManager w !! c = Some this)); [done|].
    set (w' := match connectionManager w !! c with
               | Some old => removeConnection old c w
               | None => w
               end).
    assert (wellFormed w' /\ connectionManager w' !! c = None) as [Hwf' Hc'].
    { subst w'. destruct (connectionManager w !! c) as [old|] eqn:Hold; [|done].
      split; [by apply wellFormed_removeConnection|].
      by apply removeConnection_detaches. }
    destruct (managers w' !! this) as [m|] eqn:Hm; [|done].
    by apply wellFormed_link. }
  destruct t; [|done].
  destruct (managers w1 !! this); [|done]. by apply wellFormed_scheduleTimeout.
Qed.

Lemma dropLoop_detaches (l : list nat) :
  forall (i : Z) (cm : gmap nat nat) (ts : gmap nat Z) (made : list Event)
         (x : nat),
    (dropLoop l i cm ts made).1.1 !! x
    = if decide (x ∈ l) then None else cm !! x.
Proof.
  induction l as [|conn rest IH]; intros i cm ts made x; cbn [dropLoop fst snd].
  - destruct (decide (x ∈ [])) as [Hin|]; [inversion Hin|done].
  - rewrite IH. destruct (decide (x ∈ rest)) as [Hin|Hnotin].
    + rewrite decide_True; [done|]. apply elem_of_cons. by right.
    + destruct (decide (x = conn)) as [->|Hne].
      * rewrite lookup_delete_eq, decide_True; [done|].
        apply elem_of_cons. by left.
      * rewrite lookup_delete_ne by done. rewrite decide_False; [done|].
        intros [->|Hin]%elem_of_cons; done.
Qed.

Lemma wellFormed_dropAllConnections (this : nat) (w : World) :
  wellFormed w -> wellFormed (dropAllConnections this w).
Proof.
  intros [Hmgr Hconn]. unfold dropAllConnections.
  destruct (managers w !! this) as [m|] eqn:Hm; [|done].
  pose proof (dropLoop_detaches (conns_ m) 0%Z (connectionManager w)
                (timeouts w) []) as Hdet.
  destruct (dropLoop _ _ _ _ _) as [[cm ts] made]. cbn [fst] in Hdet.
  destruct (Hmgr this m Hm) as (_ & _ & Hlinks).
  split; cbn [managers connectionManager].
  - intros h mh Hh. destruct (decide (h = this)) as [->|Hne].
    + rewrite lookup_insert_eq in Hh. injection Hh as <-.
      cbn [conns_ idleIterator_ withList withGraceTimeout withLoopCallback].
      split; [apply NoDup_nil_2|]. split; [done|]. intros x Hx. inversion Hx.
    + rewrite lookup_insert_ne in Hh by done.
      destruct (Hmgr h mh Hh) as (Hnd' & Hv' & Hlinks').
      split; [done|]. split; [done|]. intros x Hx.
      specialize (Hlinks' x Hx). rewrite Hdet.
      rewrite decide_False; [done|]. intros Hin.
      specialize (Hlinks x Hin). congruence.
  - intros x h Hx. rewrite Hdet in Hx.
    destruct (decide (x ∈ conns_ m)) as [|Hnotin]; [done|].
    destruct (Hconn x h Hx) as (mh & Hmh & Hxin).
    destruct (decide (h = this)) as [->|Hne].
    + rewrite Hm in Hmh. injection Hmh as <-. done.
    + exists mh. by rewrite lookup_insert_ne.
Qed.

Lemma wellFormed_fresh (timeout : Z) (callback : bool) :
  wellFormed (fresh timeout callback).
Proof.
  unfold fresh. split; cbn [managers connectionManager].
  - intros g m Hg. apply lookup_singleton_Some in Hg as [_ <-].
    cbn. split; [apply NoDup_nil_2|]. split; [done|]. intros x Hx. inversion Hx.
  - intros x g Hx. by rewrite lookup_empty in Hx.
Qed.

(** X5: the bookkeeping is kept by every call on a manager: no list links a
    connection twice, every [idleIterator_] stays valid, and a connection
    is in the list of the one manager it reports, so it is linked into at
    most one manager at a time. *)
Theorem wellFormed_preserved (isBusy : nat -> bool) (getIdleTime : nat -> Z)
    (this : nat) (c : Call) (w : World) :
  wellFormed w ->
  permitted this c w ->
  wellFormed (exec isBusy getIdleTime this c w)
  /\ (forall conn g1 g2 m1 m2,
        managers w !! g1 = Some m1 -> managers w !! g2 = Some m2 ->
        conn ∈ conns_ m1 -> conn ∈ conns_ m2 -> g1 = g2).
Proof.
  intros Hwf Hperm. split.
  - destruct c; cbn [exec permitted] in *.
    + by apply wellFormed_addConnection.
    + by apply wellFormed_removeConnection.
    + by apply wellFormed_initiateGracefulShutdown.
    + by apply wellFormed_drainAllConnections.
    + by apply wellFormed_dropAllConnections.
    + by apply wellFormed_onActivated.
    + by apply wellFormed_onDeactivated.
    + by apply wellFormed_dropIdleConnections.
  - intros conn g1 g2 m1 m2 Hm1 Hm2 Hin1 Hin2.
    destruct (proj1 Hwf g1 m1 Hm1) as (_ & _ & Hl1).
    destruct (proj1 Hwf g2 m2 Hm2) as (_ & _ & Hl2).
    specialize (Hl1 conn Hin1). specialize (Hl2 conn Hin2). congruence.
Qed.

(** *** Activation and deactivation *)

Lemma nodesFrom_app_l (d : nat) (l1 l2 : list nat) :
  d ∈ l1 -> nodesFrom d (l1 ++ l2) = nodesFrom d l1 ++ l2.
Proof.
  induction l1 as [|x l1 IH]; intros Hd; [inversion Hd|]. simpl.
  destruct (decide (x = d)); [done|].
  apply elem_of_cons in Hd as [->|Hd]; [done|]. by apply IH.
Qed.

Lemma nodesFrom_app_r (d : nat) (l1 l2 : list nat) :
  d ∉ l1 -> nodesFrom d (l1 ++ l2) = nodesFrom d l2.
Proof.
  induction l1 as [|x l1 IH]; intros Hd; [done|]. simpl.
  destruct (decide (x = d)) as [->|_].
  - exfalso. apply Hd. apply elem_of_cons. by left.
  - apply IH. intros Hin. apply Hd. apply elem_of_cons. by right.
Qed.

(** X10: [onActivated] moves the connection to the head of the list and
    takes it, and nothing else, out of the idle range (the nodes from
    [idleIterator_] to the end), whose other connections keep their order. *)
Theorem onActivated_leaves_idle_range (this conn : nat) (w : World)
    (m : ConnectionManager) :
  managers w !! this = Some m ->
  NoDup (conns_ m) ->
  validIterator (idleIterator_ m) (conns_ m) ->
  conn ∈ conns_ m ->
  exists m',
    managers (onActivated this conn w) !! this = Some m'
    /\ conns_ m' = conn :: erase conn (conns_ m)
    /\ range (idleIterator_ m') (conns_ m')
       = erase conn (range (idleIterator_ m) (conns_ m))
    /\ (conn ∉ range (idleIterator_ m') (conns_ m'))
    /\ validIterator (idleIterator_ m') (conns_ m').
Proof.
  intros Hm Hnd Hv Hin. unfold onActivated, setManager. rewrite Hm.
  eexists. cbn [managers]. split; [apply lookup_insert_eq|].
  cbn [conns_ idleIterator_ withList]. split; [done|].
  set (l := conns_ m) in *.
  assert (range (if decide (Some conn = idleIterator_ m)
                 then next conn l else idleIterator_ m)
            (conn :: erase conn l)
          = erase conn (range (idleIterator_ m) l)) as Hrange.
  { destruct (decide (Some conn = idleIterator_ m)) as [Heq|Hne].
    - rewrite <- Heq. cbn [range]. rewrite (nodesFrom_next conn l Hnd Hin).
      simpl erase. destruct (decide (conn = conn)); [|done].
      destruct (next conn l) as [d|] eqn:Hn; [|done].
      destruct (next_elem_of conn d l Hnd Hn) as [Hd Hdc].
      cbn [range]. rewrite nodesFrom_skip by done.
      rewrite nodesFrom_erase by done. apply erase_notin.
      pose proof (nodesFrom_NoDup conn l Hnd) as Hnd'.
      rewrite (nodesFrom_next conn l Hnd Hin), Hn in Hnd'. cbn [range] in Hnd'.
      by apply NoDup_cons in Hnd' as [Hnotin _].
    - destruct (idleIterator_ m) as [d|]; [|done]. cbn [range].
      rewrite nodesFrom_skip by congruence.
      apply nodesFrom_erase; [done|congruence]. }
  rewrite Hrange. split; [done|]. split.
  - intros Hc. apply erase_elem_of in Hc as [_ Hc]; [done|].
    destruct (idleIterator_ m); [by apply nodesFrom_NoDup|apply NoDup_nil_2].
  - destruct (decide (Some conn = idleIterator_ m)) as [Heq|Hne].
    + pose proof (next_valid conn l Hnd) as Hn.
      destruct (next conn l); [|done]. simpl in *. apply elem_of_cons. by right.
    + destruct (idleIterator_ m) as [d|]; [|done]. simpl in *.
      apply elem_of_cons. right. apply erase_elem_of; [done|].
      split; [done|congruence].
Qed.

(** X11: [onDeactivated] moves the connection to the tail of the list and
    into the idle range: when [idleIterator_] was at the end it now points
    at this connection, and otherwise the idle range keeps its other
    connections in order before it; but when [idleIterator_] pointed at
    this very connection the idle range shrinks to it alone. *)
Theorem onDeactivated_enters_idle_range (this conn : nat) (w : World)
    (m : ConnectionManager) :
  managers w !! this = Some m ->
  NoDup (conns_ m) ->
  validIterator (idleIterator_ m) (conns_ m) ->
  conn ∈ conns_ m ->
  exists m',
    managers (onDeactivated this conn w) !! this = Some m'
    /\ conns_ m' = erase conn (conns_ m) ++ [conn]
    /\ conn ∈ range (idleIterator_ m') (conns_ m')
    /\ (idleIterator_ m <> Some conn ->
        range (idleIterator_ m') (conns_ m')
        = erase conn (range (idleIterator_ m) (conns_ m)) ++ [conn])
    /\ (idleIterator_ m = Some conn ->
        range (idleIterator_ m') (conns_ m') = [conn]).
Proof.
  intros Hm Hnd Hv Hin. unfold onDeactivated, setManager. rewrite Hm.
  eexists. cbn [managers]. split; [apply lookup_insert_eq|].
  cbn [conns_ idleIterator_ withList]. split; [done|].
  set (l := conns_ m) in *.
  assert (conn ∉ erase conn l) as Hnotin.
  { rewrite erase_elem_of by done. tauto. }
  assert (nodesFrom conn (erase conn l ++ [conn]) = [conn]) as Hself.
  { rewrite nodesFrom_app_r by done. simpl. by destruct (decide (conn = conn)). }
  destruct (idleIterator_ m) as [d|] eqn:Hit.
  - cbn [range]. destruct (decide (d = conn)) as [->|Hdc].
    + rewrite Hself. split; [apply list_elem_of_singleton; done|].
      split; [congruence|done].
    + simpl in Hv.
      assert (d ∈ erase conn l) as Hd by (apply erase_elem_of; done).
      rewrite nodesFrom_app_l, nodesFrom_erase by done.
      split; [apply elem_of_app; right; by apply list_elem_of_singleton|].
      split; [done|congruence].
  - rewrite last_snoc. cbn [range]. rewrite Hself.
    split; [by apply list_elem_of_singleton|]. split; [done|congruence].
Qed.

(** *** Adding connections *)

Lemma addConnection_unmanaged (this c : nat) (t : bool) (w : World)
    (m : ConnectionManager) :
  managers w !! this = Some m ->
  connectionManager w !! c = None ->
  addConnection this c t w
  = let w1 :=
      MkWorld
        (<[this := withList (c :: conns_ m) (idleIterator_ m) m]> (managers w))
        (<[c := this]> (connectionManager w)) (timeouts w)
        (trace w ++ if callback_ m then [OnConnectionAdded this] else []) in
    if t then scheduleTimeout c (timeout_ m) w1 else w1.
Proof.
  intros Hm Hc. unfold addConnection. rewrite Hc.
  destruct (decide (None = Some this)); [done|]. rewrite Hm.
  cbn [managers]. by rewrite lookup_insert_eq.
Qed.

Lemma addConnection_other (this old c : nat) (t : bool) (w : World) :
  wellFormed w ->
  connectionManager w !! c = Some old -> old <> this ->
  addConnection this c t w = addConnection this c t (removeConnection old c w).
Proof.
  intros Hwf Hc Hne.
  pose proof (removeConnection_detaches old c w Hwf Hc) as Hdet.
  unfold addConnection at 1 2. rewrite Hc, Hdet.
  destruct (decide (Some old = Some this)); [congruence|].
  by destruct (decide (None = Some this)).
Qed.

Lemma withList_same (m : ConnectionManager) :
  withList (conns_ m) (idleIterator_ m) m = m.
Proof. by destruct m. Qed.

(** X12: [addConnection] leaves the connection linked exactly once, at the
    head of this manager's list unless it was in it already, reporting
    this manager; it is unlinked from every other manager's list, no other
    connection changes manager, [idleIterator_] stays where it was, and the
    timeout is armed with the manager's timeout when one is asked for and
    that timeout is positive. *)
Theorem addConnection_links_once (this c : nat) (t : bool) (w : World)
    (m : ConnectionManager) :
  wellFormed w ->
  managers w !! this = Some m ->
  let w' := addConnection this c t w in
  connectionManager w' !! c = Some this
  /\ (exists m',
        managers w' !! this = Some m'
        /\ conns_ m'
           = (if decide (c ∈ conns_ m) then conns_ m else c :: conns_ m)
        /\ idleIterator_ m' = idleIterator_ m)
  /\ (forall g mg, g <> this -> managers w !! g = Some mg ->
        exists mg', managers w' !! g = Some mg'
                    /\ conns_ mg' = erase c (conns_ mg))
  /\ (forall x, x <> c -> connectionManager w' !! x = connectionManager w !! x)
  /\ (t = true -> (0 < timeout_ m)%Z -> timeouts w' !! c = Some (timeout_ m)).
Proof.
  intros Hwf Hm w'. subst w'.
  assert (forall g mg, g <> this -> managers w !! g = Some mg ->
            connectionManager w !! c <> Some g -> erase c (conns_ mg) = conns_ mg)
    as Hforeign.
  { intros g mg _ Hg Hcg. apply erase_notin. intros Hin. apply Hcg.
    by apply (proj1 Hwf g mg Hg). }
  assert (forall w0 : World,
            managers (if t then scheduleTimeout c (timeout_ m) w0 else w0)
            = managers w0
            /\ connectionManager (if t then scheduleTimeout c (timeout_ m) w0 else w0)
               = connectionManager w0
            /\ (t = true -> (0 < timeout_ m)%Z ->
                timeouts (if t then scheduleTimeout c (timeout_ m) w0 else w0) !! c
                = Some (timeout_ m))) as Hsched.
  { intros w0. destruct t; [|done]. unfold scheduleTimeout.
    destruct (Z.ltb_spec 0 (timeout_ m)); cbn; [|split; [done|split; [done|lia]]].
    split; [done|]. split; [done|]. intros _ _. apply lookup_insert_eq. }
  destruct (connectionManager w !! c) as [old|] eqn:Hc.
  - destruct (decide (old = this)) as [->|Hne].
    + (* already a connection of this manager *)
      destruct (proj2 Hwf c this Hc) as (m0 & Hm0 & Hin).
      rewrite Hm in Hm0. injection Hm0 as <-.
      assert (addConnection this c t w
              = if t then scheduleTimeout c (timeout_ m) w else w) as ->.
      { unfold addConnection. rewrite Hc.
        destruct (decide (Some this = Some this)); [|done]. by rewrite Hm. }
      destruct (Hsched w) as (-> & -> & Hts).
      split; [done|]. split.
      { exists m. by rewrite decide_True. }
      split; [|done].
      intros g mg Hg Hmg. exists mg. split; [done|].
      symmetry. apply (Hforeign g mg Hg Hmg). congruence.
    + (* a connection of another manager *)
      destruct (proj2 Hwf c old Hc) as (mo & Hmo & Hino).
      rewrite (addConnection_other this old c t w Hwf Hc Hne).
      assert (removeConnection old c w
              = MkWorld
                  (<[old := withList (erase c (conns_ mo))
                              (if decide (Some c = idleIterator_ mo)
                               then next c (conns_ mo) else idleIterator_ mo) mo]>
                     (managers w))
                  (delete c (connectionManager w)) (delete c (timeouts w))
                  (trace (removeConnection old c w))) as Hrem.
      { unfold removeConnection. rewrite Hc, Hmo.
        by destruct (decide (Some old = Some old)). }
      rewrite Hrem.
      rewrite (addConnection_unmanaged this c t _ m);
        cbn [managers connectionManager];
        [|by rewrite lookup_insert_ne|apply lookup_delete_eq].
      cbv zeta. match goal with |- context [if t then scheduleTimeout _ _ ?w0 else _] =>
        destruct (Hsched w0) as (-> & -> & Hts) end.
      cbn [managers connectionManager].
      split; [apply lookup_insert_eq|]. split.
      { eexists. split; [apply lookup_insert_eq|]. cbn [conns_ idleIterator_ withList].
        split; [|done]. rewrite decide_False; [done|].
        intros Hin.
        pose proof (proj2 (proj2 (proj1 Hwf this m Hm)) c Hin) as Hl.
        congruence. }
      split; [|split; [|done]].
      * intros g mg Hg Hmg. rewrite lookup_insert_ne by done.
        destruct (decide (g = old)) as [->|Hgo].
        -- rewrite lookup_insert_eq. eexists. split; [done|].
           rewrite Hmo in Hmg. by injection Hmg as <-.
        -- rewrite lookup_insert_ne by done. exists mg. split; [done|].
           symmetry. apply (Hforeign g mg Hg Hmg). congruence.
      * intros x Hx. by rewrite lookup_insert_ne, lookup_delete_ne.
  - (* an unmanaged connection *)
    rewrite (addConnection_unmanaged this c t w m Hm Hc). cbv zeta.
    match goal with |- context [if t then scheduleTimeout _ _ ?w0 else _] =>
      destruct (Hsched w0) as (-> & -> & Hts) end.
    cbn [managers connectionManager].
    split; [apply lookup_insert_eq|]. split.
    { eexists. split; [apply lookup_insert_eq|]. cbn [conns_ idleIterator_ withList].
      split; [|done]. rewrite decide_False; [done|].
      intros Hin.
      pose proof (proj2 (proj2 (proj1 Hwf this m Hm)) c Hin) as Hl.
      congruence. }
    split; [|split; [|done]].
    + intros g mg Hg Hmg. rewrite lookup_insert_ne by done.
      exists mg. split; [done|]. symmetry. apply (Hforeign g mg Hg Hmg). congruence.
    + intros x Hx. by rewrite lookup_insert_ne.
Qed.

(** X13: adding an unmanaged connection and removing it again restores the
    managers (lists and iterators) and the connections' managers; its
    timeout is left cancelled, and the callback has heard
    [onConnectionAdded], [onConnectionRemoved] and, when the manager was
    empty before, [onEmpty]. *)
Theorem add_then_remove_restores (this c : nat) (t : bool) (w : World)
    (m : ConnectionManager) :
  wellFormed w ->
  managers w !! this = Some m ->
  connectionManager w !! c = None ->
  let w' := removeConnection this c (addConnection this c t w) in
  managers w' = managers w
  /\ connectionManager w' = connectionManager w
  /\ timeouts w' = delete c (timeouts w)
  /\ trace w'
     = trace w ++
       (if callback_ m
        then OnConnectionAdded this :: OnConnectionRemoved this ::
             (if decide (conns_ m = []) then [OnEmpty this] else [])
        else []).
Proof.
  intros Hwf Hm Hc w'. subst w'.
  destruct (proj1 Hwf this m Hm) as (_ & Hv & Hlinks).
  assert (c ∉ conns_ m) as Hnotin.
  { intros Hin. specialize (Hlinks c Hin). congruence. }
  assert (Some c <> idleIterator_ m) as Hit.
  { intros Heq. rewrite <- Heq in Hv. done. }
  rewrite (addConnection_unmanaged this c t w m Hm Hc). cbv zeta.
  set (w1 := MkWorld _ _ _ _).
  assert (exists ts, (if t then scheduleTimeout c (timeout_ m) w1 else w1)
                     = MkWorld (managers w1) (connectionManager w1) ts (trace w1)
                     /\ delete c ts = delete c (timeouts w)) as (ts & -> & Hts).
  { destruct t; [|by exists (timeouts w)]. unfold scheduleTimeout.
    destruct (0 <? timeout_ m)%Z; [|by exists (timeouts w)].
    eexists. split; [done|]. apply delete_insert_eq. }
  unfold removeConnection, w1. cbn [managers connectionManager timeouts trace].
  rewrite !lookup_insert_eq.
  destruct (decide (Some this = Some this)); [|done].
  cbn [managers connectionManager timeouts trace conns_ idleIterator_ withList
       callback_ getNumConnections].
  rewrite decide_False by done. simpl erase.
  destruct (decide (c = c)); [|done].
  rewrite insert_insert_eq.
  replace (withList (conns_ m) (idleIterator_ m)
             (withList (c :: conns_ m) (idleIterator_ m) m)) with m
    by (by destruct m).
  rewrite insert_id by done. rewrite delete_insert_id by done.
  split; [reflexivity|]. split; [reflexivity|]. split; [exact Hts|].
  rewrite <- app_assoc. f_equal. unfold getNumConnections.
  destruct (callback_ m); [|reflexivity]. simpl.
  destruct (conns_ m) as [|x l]; reflexivity.
Qed.

(** *** Dropping all connections *)

Lemma dropLoop_timeouts (l : list nat) :
  forall (i : Z) (cm : gmap nat nat) (ts : gmap nat Z) (made : list Event)
         (x : nat),
    (dropLoop l i cm ts made).1.2 !! x
    = if decide (x ∈ l) then None else ts !! x.
Proof.
  induction l as [|conn rest IH]; intros i cm ts made x; cbn [dropLoop fst snd].
  - destruct (decide (x ∈ [])) as [Hin|]; [inversion Hin|done].
  - rewrite IH. destruct (decide (x ∈ rest)) as [Hin|Hnotin].
    + rewrite decide_True; [done|]. apply elem_of_cons. by right.
    + destruct (decide (x = conn)) as [->|Hne].
      * rewrite lookup_delete_eq, decide_True; [done|].
        apply elem_of_cons. by left.
      * rewrite lookup_delete_ne by done. rewrite decide_False; [done|].
        intros [->|Hin]%elem_of_cons; done.
Qed.

Lemma dropLoop_trace (l : list nat) :
  forall (i : Z) (cm : gmap nat nat) (ts : gmap nat Z) (made : list Event),
  exists made',
    (dropLoop l i cm ts made).2 = made ++ made'
    /\ omap droppedConn made' = l
    /\ ((0 <= i)%Z -> (i + Z.of_nat (length l) < 2 ^ 32)%Z ->
        omap dumpedConn made'
        = (fun c => (c, 3%Z)) <$> take (Z.to_nat (2 - i)) l).
Proof.
  induction l as [|conn rest IH]; intros i cm ts made; cbn [dropLoop].
  - exists []. rewrite app_nil_r, take_nil. done.
  - set (i' := ((i + 1) mod 2 ^ 32)%Z).
    destruct (IH i' (delete conn cm) (delete conn ts)
                (made ++ (if (i' <=? 2)%Z then [DumpConnectionState conn 3] else [])
                      ++ [DropConnection conn]))
      as (made' & -> & Hdrop & Hdump).
    exists ((if (i' <=? 2)%Z then [DumpConnectionState conn 3] else [])
            ++ [DropConnection conn] ++ made').
    rewrite <- !app_assoc. split; [done|]. split.
    + rewrite !omap_app, Hdrop. by destruct (i' <=? 2)%Z.
    + intros Hi Hlen. cbn [length] in Hlen.
      assert (i' = (i + 1)%Z) as Hi'.
      { unfold i'. apply Z.mod_small. lia. }
      rewrite !omap_app, Hdump by lia. rewrite Hi'.
      destruct (Z.leb_spec (i + 1) 2) as [Hle|Hgt].
      * replace (Z.to_nat (2 - i)) with (S (Z.to_nat (2 - (i + 1)))) by lia.
        done.
      * replace (Z.to_nat (2 - i)) with 0 by lia.
        replace (Z.to_nat (2 - (i + 1))) with 0 by lia.
        by rewrite take_0.
Qed.

(** X14: [dropAllConnections] empties the manager: every connection of
    the list is dropped, once and in list order, after being detached and
    having its timeout cancelled; with fewer than [2 ^ 32] connections
    (the range of the [unsigned] counter) only the first two are dumped
    (at verbosity 3); the other connections are untouched; the list is empty,
    [idleIterator_] at its end, the grace timer and the queued sweep are
    cancelled, the shutdown phase is as it was, and [onEmpty] is fired
    whenever a callback is installed, also when there was no connection. *)
Theorem dropAllConnections_drops_all (this : nat) (w : World)
    (m : ConnectionManager) :
  managers w !! this = Some m ->
  let w' := dropAllConnections this w in
  (exists m',
     managers w' !! this = Some m'
     /\ conns_ m' = [] /\ idleIterator_ m' = None
     /\ loopCallbackScheduled m' = false /\ graceTimeout m' = None
     /\ action_ m' = action_ m)
  /\ (forall c, c ∈ conns_ m ->
        connectionManager w' !! c = None /\ timeouts w' !! c = None)
  /\ (forall c, c ∉ conns_ m ->
        connectionManager w' !! c = connectionManager w !! c
        /\ timeouts w' !! c = timeouts w !! c)
  /\ (exists made,
        trace w'
        = trace w ++ made ++ (if callback_ m then [OnEmpty this] else [])
        /\ omap droppedConn made = conns_ m
        /\ ((Z.of_nat (length (conns_ m)) < 2 ^ 32)%Z ->
            omap dumpedConn made
            = (fun c => (c, 3%Z)) <$> take 2 (conns_ m))).
Proof.
  intros Hm w'. subst w'. unfold dropAllConnections. rewrite Hm.
  pose proof (dropLoop_detaches (conns_ m) 0%Z (connectionManager w)
                (timeouts w) []) as Hcm.
  pose proof (dropLoop_timeouts (conns_ m) 0%Z (connectionManager w)
                (timeouts w) []) as Hts.
  destruct (dropLoop_trace (conns_ m) 0%Z (connectionManager w) (timeouts w) [])
    as (made' & Htr & Hdrop & Hdump).
  destruct (dropLoop _ _ _ _ _) as [[cm ts] made]. cbn [fst snd] in *.
  cbn [managers connectionManager timeouts trace]. subst made.
  split; [|split; [|split]].
  - eexists. split; [apply lookup_insert_eq|]. done.
  - intros c Hc. rewrite Hcm, Hts. by rewrite !decide_True.
  - intros c Hc. rewrite Hcm, Hts. by rewrite !decide_False.
  - exists made'. split; [done|]. split; [done|].
    intros Hlen. apply Hdump; lia.
Qed.

(** *** Where the sweeps of a shutdown start *)

(** X15: the sweeps of a shutdown start at [idleIterator_]: when it points
    into the list, the connections from it to the end are asked to close,
    in order, and the connections linked before it are not. *)
Theorem shutdown_sweeps_from_idleIterator (isBusy : nat -> bool)
    (this k : nat) (idleGrace : Z) (w : World) (m : ConnectionManager)
    (busy idle : list nat) (d : nat) :
  managers w !! this = Some m ->
  (idleGrace <= 0)%Z ->
  NoDup (conns_ m) ->
  conns_ m = busy ++ d :: idle ->
  idleIterator_ m = Some d ->
  loopCallbackScheduled m = false ->
  length (d :: idle) <= 64 * S k ->
  let w' := loopIterations isBusy this k
              (initiateGracefulShutdown isBusy this idleGrace w) in
  trace w' = trace w ++ (CloseWhenIdle <$> d :: idle)
  /\ (forall c, c ∈ busy -> CloseWhenIdle c ∉ (CloseWhenIdle <$> d :: idle))
  /\ exists m',
       managers w' !! this = Some m'
       /\ loopCallbackScheduled m' = false
       /\ action_ m' = DRAIN2.
Proof.
  intros Hm Hg Hnd Hsplit Hit Hs Hlen w'. subst w'.
  assert ((d :: idle) `suffix_of` conns_ m) as Hsuf by (by exists busy).
  assert (range (sweepStart m) (conns_ m) = d :: idle) as HR.
  { unfold sweepStart. rewrite Hit. cbn [range]. by apply nodesFrom_suffix. }
  unfold initiateGracefulShutdown. rewrite Hm.
  destruct (Z.ltb_spec 0 idleGrace); [lia|].
  destruct (drain2_sweeps isBusy this k
              (setManager this (withAction DRAIN2 m) w) (withAction DRAIN2 m)
              (d :: idle)) as [Ht Hm']; try done.
  { unfold setManager. cbn [managers]. apply lookup_insert_eq. }
  split; [exact Ht|]. split; [|exact Hm'].
  intros c Hc Hin. apply list_elem_of_fmap in Hin as (c' & [= <-] & Hin).
  rewrite Hsplit in Hnd. apply NoDup_app in Hnd as (_ & Hdisj & _).
  by apply (Hdisj c).
Qed.

(** *** Managers without a timeout *)

Lemma quot_2_nonpos (t : Z) : (t <= 0)%Z -> (t <= t ÷ 2)%Z.
Proof.
  intros Ht. pose proof (Z.quot_opp_l t 2 ltac:(lia)) as Ho.
  assert (0 <= - t ÷ 2 <= - t)%Z as Hq.
  { split; [apply Z.quot_pos; lia|]. apply Z.quot_le_upper_bound; lia. }
  lia.
Qed.

(** X16: a manager whose timeout is zero or negative, with the early-drop
    threshold the constructor derives from it, never arms a connection's
    timeout in [addConnection] and never drops an idle connection early. *)
Theorem nonpositive_timeout_disables_timeouts (getIdleTime : nat -> Z)
    (this c n : nat) (t : bool) (w : World) (m : ConnectionManager) :
  managers w !! this = Some m ->
  (timeout_ m <= 0)%Z ->
  idleConnEarlyDropThreshold_ m = (timeout_ m ÷ 2)%Z ->
  (forall old, connectionManager w !! c = Some old -> old = this) ->
  timeouts (addConnection this c t w) = timeouts w
  /\ dropIdleConnections getIdleTime this n w = (0, w).
Proof.
  intros Hm Ht Hthr Hc. split.
  - assert (forall w0, scheduleTimeout c (timeout_ m) w0 = w0) as Hsched.
    { intros w0. unfold scheduleTimeout.
      by destruct (Z.ltb_spec 0 (timeout_ m)); [lia|]. }
    destruct (connectionManager w !! c) as [old|] eqn:Hcm.
    + rewrite (Hc old eq_refl) in Hcm. unfold addConnection. rewrite Hcm.
      destruct (decide (Some this = Some this)); [|done]. rewrite Hm.
      destruct t; [by rewrite Hsched|done].
    + rewrite (addConnection_unmanaged this c t w m Hm Hcm). cbv zeta.
      destruct t; [by rewrite Hsched|done].
  - unfold dropIdleConnections. rewrite Hm, Hthr.
    pose proof (quot_2_nonpos (timeout_ m) Ht).
    by destruct (Z.leb_spec (timeout_ m) (timeout_ m ÷ 2)); [|lia].
Qed.

(** *** The properties at concrete inputs *)

Lemma removeConnection_managed_witness :
  exists m',
    managers
      (removeConnection 0 2 (onDeactivated 0 1 (onDeactivated 0 2 (withConnections 3))))
      !! 0 = Some m'
    /\ conns_ m' = [3; 1]
    /\ idleIterator_ m' = Some 1
    /\ range (idleIterator_ m') (conns_ m') = [1].
Proof.
  destruct (removeConnection_managed 0 2
              (onDeactivated 0 1 (onDeactivated 0 2 (withConnections 3)))
              (withList [3; 2; 1] (Some 2) (construct 1000 true)))
    as (_ & _ & (m' & Hm' & Hconns & _ & _ & _ & Hit & Hrange & _) & _).
  - vm_compute. reflexivity.
  - vm_compute. reflexivity.
  - cbv [conns_ withList]. compute_done.
  - cbv [conns_ withList]. compute_done.
  - cbv [validIterator idleIterator_ conns_ withList]. compute_done.
  - exists m'. split; [exact Hm'|]. split; [exact Hconns|].
    split; [rewrite Hit; vm_compute; reflexivity|].
    rewrite Hrange. vm_compute. reflexivity.
Defined.

Lemma removeConnection_foreign_noop_witness :
  removeConnection 0 7 twoManagers = twoManagers.
Proof.
  apply removeConnection_foreign_noop. vm_compute. discriminate.
Defined.

Lemma dropIdleConnections_walk_witness :
  (dropIdleConnections idleTimes 0 5 threeIdle).1 = 2
  /\ trace (dropIdleConnections idleTimes 0 5 threeIdle).2
     = [TimeoutExpired 3; TimeoutExpired 2].
Proof.
  destruct (dropIdleConnections_walk idleTimes 0 5 threeIdle
              (withList [4; 3; 2; 1] (Some 3) (construct 1000 true)))
    as [_ Hwalk].
  - reflexivity.
  - compute_done.
  - cbv [validIterator idleIterator_ conns_ withList]. compute_done.
  - destruct (Hwalk eq_refl) as (Hcount & Htrace & _).
    + vm_compute. reflexivity.
    + split; [exact Hcount|exact Htrace].
Defined.

Lemma drain2_sweep_bounded_witness :
  length (calls (sweep (fun _ => false)
                   (withAction DRAIN2
                      (withList (seq 1 100) None (construct 1000 true)))))
  <= 64.
Proof.
  refine (proj1 (drain2_sweep_bounded (fun _ => false)
                   (withAction DRAIN2
                      (withList (seq 1 100) None (construct 1000 true))) _)).
  reflexivity.
Defined.

Lemma zero_grace_drains_in_ceil_sweeps_witness :
  trace (loopIterations (fun _ => false) 0 1
           (initiateGracefulShutdown (fun _ => false) 0 0
              (MkWorld {[0 := withList (seq 1 100) None (construct 1000 true)]}
                 ∅ ∅ [])))
  = CloseWhenIdle <$> seq 1 100.
Proof.
  refine (proj1 (zero_grace_drains_in_ceil_sweeps (fun _ => false) 0 0%Z
                   (MkWorld
                      {[0 := withList (seq 1 100) None (construct 1000 true)]}
                      ∅ ∅ [])
                   (withList (seq 1 100) None (construct 1000 true))
                   _ _ _ _ _)).
  - reflexivity.
  - lia.
  - compute_done.
  - reflexivity.
  - reflexivity.
Defined.

Lemma wellFormed_preserved_witness :
  wellFormed (addConnection 0 7 true (fresh 1000 true)).
Proof.
  refine (proj1 (wellFormed_preserved (fun _ => false) (fun _ => 0%Z) 0
                   (CallAddConnection 7 true) (fresh 1000 true) _ I)).
  apply wellFormed_fresh.
Defined.

Lemma onActivated_leaves_idle_range_witness :
  exists m',
    managers (onActivated 0 2 threeIdle) !! 0 = Some m'
    /\ conns_ m' = [2; 4; 3; 1]
    /\ range (idleIterator_ m') (conns_ m') = [3; 1].
Proof.
  destruct (onActivated_leaves_idle_range 0 2 threeIdle
              (withList [4; 3; 2; 1] (Some 3) (construct 1000 true)))
    as (m' & Hm' & Hconns & Hrange & _).
  - reflexivity.
  - compute_done.
  - cbv [validIterator idleIterator_ conns_ withList]. compute_done.
  - cbv [conns_ withList]. compute_done.
  - exists m'. split; [exact Hm'|]. split; [exact Hconns|exact Hrange].
Defined.

Lemma onDeactivated_enters_idle_range_witness :
  exists m',
    managers (onDeactivated 0 4 threeIdle) !! 0 = Some m'
    /\ conns_ m' = [3; 2; 1; 4]
    /\ range (idleIterator_ m') (conns_ m') = [3; 2; 1; 4].
Proof.
  destruct (onDeactivated_enters_idle_range 0 4 threeIdle
              (withList [4; 3; 2; 1] (Some 3) (construct 1000 true)))
    as (m' & Hm' & Hconns & _ & Hrange & _).
  - reflexivity.
  - compute_done.
  - cbv [validIterator idleIterator_ conns_ withList]. compute_done.
  - cbv [conns_ withList]. compute_done.
  - exists m'. split; [exact Hm'|]. split; [exact Hconns|].
    apply Hrange. discriminate.
Defined.

Lemma wellFormed_twoManagers : wellFormed twoManagers.
Proof.
  unfold twoManagers. apply wellFormed_addConnection.
  split; cbn [managers connectionManager].
  - intros g m Hg.
    apply lookup_insert_Some in Hg as [[_ <-]|[_ Hg]];
      [|apply lookup_singleton_Some in Hg as [_ <-]];
      (split; [apply NoDup_nil_2|]; split; [exact I|]; intros x Hx;
       inversion Hx).
  - intros x g Hx. rewrite lookup_empty in Hx. discriminate Hx.
Qed.

Lemma addConnection_links_once_witness :
  connectionManager (addConnection 0 7 true twoManagers) !! 7 = Some 0
  /\ timeouts (addConnection 0 7 true twoManagers) !! 7 = Some 1000%Z.
Proof.
  destruct (addConnection_links_once 0 7 true twoManagers (construct 1000 true))
    as (Hc & _ & _ & _ & Ht).
  - apply wellFormed_twoManagers.
  - vm_compute. reflexivity.
  - split; [exact Hc|]. apply Ht; [reflexivity|vm_compute; reflexivity].
Defined.

Lemma add_then_remove_restores_witness :
  managers (removeConnection 0 7 (addConnection 0 7 true (fresh 1000 true)))
  = managers (fresh 1000 true).
Proof.
  refine (proj1 (add_then_remove_restores 0 7 true (fresh 1000 true)
                   (construct 1000 true) _ _ _)).
  - apply wellFormed_fresh.
  - reflexivity.
  - reflexivity.
Defined.

Lemma dropAllConnections_drops_all_witness :
  exists made,
    trace (dropAllConnections 0 threeIdle) = made ++ [OnEmpty 0]
    /\ omap droppedConn made = [4; 3; 2; 1]
    /\ omap dumpedConn made = [(4, 3%Z); (3, 3%Z)].
Proof.
  destruct (dropAllConnections_drops_all 0 threeIdle
              (withList [4; 3; 2; 1] (Some 3) (construct 1000 true)) eq_refl)
    as (_ & _ & _ & made & Htr & Hdrop & Hdump).
  exists made. split; [exact Htr|]. split; [exact Hdrop|].
  apply Hdump. reflexivity.
Defined.

Lemma shutdown_sweeps_from_idleIterator_witness :
  trace (initiateGracefulShutdown (fun _ => false) 0 0 threeIdle)
  = [CloseWhenIdle 3; CloseWhenIdle 2; CloseWhenIdle 1].
Proof.
  refine (proj1 (shutdown_sweeps_from_idleIterator (fun _ => false) 0 0 0%Z
                   threeIdle
                   (withList [4; 3; 2; 1] (Some 3) (construct 1000 true))
                   [4] [2; 1] 3 _ _ _ _ _ _ _)).
  - reflexivity.
  - lia.
  - compute_done.
  - reflexivity.
  - reflexivity.
  - reflexivity.
  - simpl. lia.
Defined.

Lemma nonpositive_timeout_disables_timeouts_witness :
  timeouts (addConnection 0 7 true (fresh 0 true)) = timeouts (fresh 0 true)
  /\ dropIdleConnections idleTimes 0 5 (fresh 0 true) = (0, fresh 0 true).
Proof.
  refine (nonpositive_timeout_disables_timeouts idleTimes 0 7 5 true
            (fresh 0 true) (construct 0 true) _ _ _ _).
  - reflexivity.
  - simpl. lia.
  - reflexivity.
  - intros old Hold. vm_compute in Hold. discriminate Hold.
Defined.

Lemma phase_flips_at_initiation_or_end_of_sweep_witness :
  graceTimeout
    (withAction DRAIN2
       (withGraceTimeout (Some 1000%Z) (withList [1] None (construct 1000 true))))
  = Some 1000%Z.
Proof.
  destruct (phase_flips_at_initiation_or_end_of_sweep (fun _ => false)
              (fun _ => 0%Z) 0 (CallInitiateGracefulShutdown 1000)
              (withConnections 1)
              (withList [1] None (construct 1000 true))
              (withAction DRAIN2
                 (withGraceTimeout (Some 1000%Z)
                    (withList [1] None (construct 1000 true)))))
    as (_ & _ & _ & Hinit).
  - vm_compute. reflexivity.
  - vm_compute. reflexivity.
  - destruct (Hinit 1000%Z eq_refl) as [Hg _]; [lia|exact Hg].
Defined.

End ConnMgrFacts.
